(** * py-llll: a shallow embedding of [llll.py] and its verified properties

    [llll.py] is a LINQ-like list processing library.  Every operator is an
    ordinary function [f(xs, args)] wrapped by the decorator [queryize] into
    a constructor of [Query] objects; a query is attached to a source with
    the [|] operator ([Query.__ror__]).

    The first half of this file embeds the operators, the second half
    proves their properties.  Python values that the library only moves
    around are elements of an arbitrary type [A]; where the library compares
    objects by identity ([is]) they are objects carrying an identifier. *)

From Stdlib Require Import List ZArith Bool String Ascii Lia Arith.
From Stdlib Require Import Permutation Sorted DecimalString.
Import ListNotations.

Set Implicit Arguments.
Generalizable All Variables.

Open Scope string_scope.
Open Scope list_scope.
Open Scope Z_scope.

(* ================================================================== *)
(** * Part I. The embedding *)
(* ================================================================== *)

(** ** Exceptions, results and the state-and-error monad *)

(** The exceptions the library raises itself, with their messages, and
    [TypeError], which the interpreter raises when a value that is not
    iterable is iterated. *)
Inductive exn : Type :=
| ValueError (msg : string)
| IndexError (msg : string)
| LookupError (msg : string)
| KeyError
| TypeError (msg : string).

(** The outcome of evaluating an expression: a value or a raised exception. *)
Inductive result (T : Type) : Type :=
| Return (v : T)
| Raise (e : exn).
Arguments Return {T} v.
Arguments Raise {T} e.

Definition result_bind {T U} (r : result T) (k : T -> result U) : result U :=
  match r with
  | Return v => k v
  | Raise e => Raise e
  end.

(** Code that mutates local objects or allocates fresh ones threads a state
    [S]; an exception leaves the state as it was when it was raised. *)
Definition M (S T : Type) : Type := S -> result T * S.

Definition ret {S T} (v : T) : M S T := fun s => (Return v, s).
Definition raise {S T} (e : exn) : M S T := fun s => (Raise e, s).
Definition bind {S T U} (m : M S T) (k : T -> M S U) : M S U :=
  fun s => match m s with
           | (Return v, s') => k v s'
           | (Raise e, s') => (Raise e, s')
           end.

Declare Scope py_scope.
Delimit Scope py_scope with py.
Notation "x <- m ;; k" := (bind m (fun x => k))
  (at level 61, m at next level, right associativity) : py_scope.
Notation "m ;;; k" := (bind m (fun _ => k))
  (at level 61, right associativity) : py_scope.
Open Scope py_scope.

(** ** Formatting *)

(** ['%d' % n], and [repr] of an integer. *)
Definition format_d (n : Z) : string := NilZero.string_of_int (Z.to_int n).

(** [repr] of a string without quotes or escapes in it. *)
Definition repr_str (s : string) : string := ("'" ++ s ++ "'")%string.

(** [len] of a string. *)
Definition len (s : string) : Z := Z.of_nat (String.length s).

(** ** [Query] and [queryize] *)

(** [class Query]: a wrapper around a one-argument function. *)
Record Query (X Y : Type) : Type := { ys_from_xs : X -> Y }.

(** [Query.__ror__]: [xs | query] applies the wrapped function to [xs]. *)
Definition ror {X Y} (xs : X) (self : Query X Y) : Y := ys_from_xs self xs.

Notation "xs |> q" := (ror xs q) (at level 50, left associativity) : py_scope.

(** [xs | query] where evaluating the left operand may itself raise. *)
Notation "r |>> q" := (result_bind r (fun xs => ror xs q))
  (at level 50, left associativity) : py_scope.

(** [queryize]: [wrapped_query(args)] is
    [Query(lambda xs: original_query(xs, args))], here for no, one and two
    extra arguments. *)
Definition queryize0 {X Y} (original_query : X -> Y) : Query X Y :=
  {| ys_from_xs := fun xs => original_query xs |}.
Definition queryize1 {X P Y} (original_query : X -> P -> Y) : P -> Query X Y :=
  fun a => {| ys_from_xs := fun xs => original_query xs a |}.
Definition queryize2 {X P1 P2 Y} (original_query : X -> P1 -> P2 -> Y)
  : P1 -> P2 -> Query X Y :=
  fun a b => {| ys_from_xs := fun xs => original_query xs a b |}.

(** ** Keys and their comparison *)

(** What [list.sort] and the tuple comparison need of a key: [==] and [<]. *)
Class PyOrd (K : Type) : Type := {
  py_eq : K -> K -> bool;
  py_lt : K -> K -> bool
}.

#[export] Instance PyOrd_int : PyOrd Z := {| py_eq := Z.eqb; py_lt := Z.ltb |}.

(** [False < True]. *)
#[export] Instance PyOrd_bool : PyOrd bool :=
  {| py_eq := Bool.eqb; py_lt := fun a b => negb a && b |}.

#[export] Instance PyOrd_str : PyOrd string :=
  {| py_eq := String.eqb; py_lt := String.ltb |}.

(** Tuples of two keys, as [then_by] builds them.  The interpreter compares
    tuples by looking for the first position where the items are not [==];
    the items there decide [<]; two tuples of the same length without such
    a position are not [<]. *)
#[export] Instance PyOrd_tuple `{PyOrd K1} `{PyOrd K2} : PyOrd (K1 * K2) := {|
  py_eq := fun a b => py_eq (fst a) (fst b) && py_eq (snd a) (snd b);
  py_lt := fun a b =>
    if py_eq (fst a) (fst b)
    then if py_eq (snd a) (snd b) then false else py_lt (snd a) (snd b)
    else py_lt (fst a) (fst b)
|}.

(** ** [list.sort(key = ...)] *)

(** The builtin sort is documented to be stable and to compare keys with
    [<] only.  It is modelled by the stable insertion sort: an element goes
    before the first element of the already sorted tail whose key is not
    smaller than its own. *)
Section Sort.
Context {A K : Type} `{PyOrd K}.
Variable key : A -> K.

Fixpoint insert_by (x : A) (sorted : list A) : list A :=
  match sorted with
  | [] => [x]
  | y :: rest =>
      if py_lt (key y) (key x) then y :: insert_by x rest
      else x :: y :: rest
  end.

Fixpoint list_sort (xs : list A) : list A :=
  match xs with
  | [] => []
  | x :: rest => insert_by x (list_sort rest)
  end.
End Sort.

(** ** Sources, [OrderedSequence], [to_list], [order_by], [then_by] *)

(** The values that appear on the left of [|]: a finite re-iterable
    sequence (list, tuple, range), an [OrderedSequence] over another
    source, or a value that is not iterable at all (an integer). *)
Inductive pyobj (A : Type) : Type :=
| Seq (items : list A)
| OrderedSequence (K : Type) (ord : PyOrd K) (xs : pyobj A) (key_from_x : A -> K)
| Int (n : Z).
Arguments Seq {A} items.
Arguments OrderedSequence {A K ord} xs key_from_x.
Arguments Int {A} n.

(** [isinstance(v, OrderedSequence)]. *)
Definition is_OrderedSequence {A} (v : pyobj A) : bool :=
  match v with
  | OrderedSequence _ _ => true
  | _ => false
  end.

(** [to_list]: [list(xs)].  Iterating an [OrderedSequence] runs
    [OrderedSequence.__iter__]:
    [xsd = self.xs | to_list(); xsd.sort(key = self.key_from_x)]
    and yields the items of [xsd]. *)
Fixpoint to_list_original {A} (xs : pyobj A) : result (list A) :=
  match xs with
  | Seq items => Return items
  | OrderedSequence xs' key_from_x =>
      result_bind (to_list_original xs')
        (fun xsd => Return (list_sort key_from_x xsd))
  | Int _ => Raise (TypeError "'int' object is not iterable")
  end.
Definition to_list {A} : Query (pyobj A) (result (list A)) :=
  queryize0 to_list_original.

(** [to_tuple]: [tuple(xs)]; a tuple has the items [list(xs)] has. *)
Definition to_tuple_original {A} (xs : pyobj A) : result (list A) :=
  to_list_original xs.
Definition to_tuple {A} : Query (pyobj A) (result (list A)) :=
  queryize0 to_tuple_original.

(** [order_by]: [return OrderedSequence(xs, key_from_x)]. *)
Definition order_by_original {A} `{PyOrd K} (xs : pyobj A) (key_from_x : A -> K)
  : pyobj A :=
  OrderedSequence xs key_from_x.
Definition order_by {A} `{PyOrd K} : (A -> K) -> Query (pyobj A) (pyobj A) :=
  queryize1 order_by_original.

(** [then_by]: an [OrderedSequence] over the source of [ordered_xs] with
    the key [lambda x: (ordered_xs.key_from_x(x), key_from_x(x))]; any
    other value raises. *)
Definition then_by_original {A} `{PyOrd K2} (ordered_xs : pyobj A)
    (key_from_x : A -> K2) : result (pyobj A) :=
  match ordered_xs with
  | OrderedSequence xs key1 =>
      Return (OrderedSequence xs (fun x => (key1 x, key_from_x x)))
  | _ => Raise (ValueError "Sequence must be sorted with order_by")
  end.
Definition then_by {A} `{PyOrd K2}
  : (A -> K2) -> Query (pyobj A) (result (pyobj A)) :=
  queryize1 then_by_original.

(** [range(n)]. *)
Definition range (n : nat) : list Z := map Z.of_nat (seq 0 n).

(** ** Reducers over a finite source

    A [for] loop over a finite source visits the items of [list(xs)] in
    order; the operators below are embedded over that list.  Predicates, key
    functions and value functions are pure total functions. *)

(** The default predicate [lambda x: True]. *)
Definition always {A} (x : A) : bool := true.

Section Reducers.
Context {A : Type}.

(** [where]: yields the items that satisfy [predicate] ([where] is a
    reserved word here, hence the underscore). *)
Fixpoint where_original (xs : list A) (predicate : A -> bool) : list A :=
  match xs with
  | [] => []
  | x :: rest =>
      if predicate x then x :: where_original rest predicate
      else where_original rest predicate
  end.
Definition where_ : (A -> bool) -> Query (list A) (list A) :=
  queryize1 where_original.

(** [first_or_default]: the first item that satisfies [predicate], and
    [default_value] when the loop ends without one. *)
Fixpoint first_or_default_original (xs : list A) (default_value : A)
    (predicate : A -> bool) : A :=
  match xs with
  | [] => default_value
  | x :: rest =>
      if predicate x then x
      else first_or_default_original rest default_value predicate
  end.
Definition first_or_default : A -> (A -> bool) -> Query (list A) A :=
  queryize2 first_or_default_original.
End Reducers.

(** ** Objects and identity *)

(** The strict reducers create a fresh list [[]] as a sentinel and test
    [result is sentinel].  An object is a value together with its identity;
    [is] compares identities, whatever the values are. *)
Inductive pyval : Type :=
| VNone
| VInt (n : Z)
| VStr (s : string)
| VList (items : list Z).

Record object : Type := { id : nat; value : pyval }.

Definition is_ (a b : object) : bool := Nat.eqb (id a) (id b).

(** The allocator: every identity below [heap] is in use. *)
Definition heap : Type := nat.

(** An object that exists in a given allocator state. *)
Definition allocated (h : heap) (o : object) : Prop := (id o < h)%nat.

(** Evaluating the expression [[]]: a new empty list. *)
Definition new_list : M heap object :=
  fun h => (Return {| id := h; value := VList [] |}, S h).

(** An expression that raises or returns without touching the state. *)
Definition lift {S T} (r : result T) : M S T := fun s => (r, s).

(** [first]. *)
Definition first_original (xs : list object) (predicate : object -> bool)
  : M heap object :=
  sentinel <- new_list ;;
  let result := xs |> first_or_default sentinel predicate in
  if is_ result sentinel
  then raise (ValueError "Sequence must contain some element")
  else ret result.
Definition first : (object -> bool) -> Query (list object) (M heap object) :=
  queryize1 first_original.

(** The loop of [single_or_default] over [xs | where(predicate)]. *)
Fixpoint single_or_default_for (sentinel the_value : object)
    (xs : list object) : result object :=
  match xs with
  | [] => Return the_value
  | x :: rest =>
      if is_ the_value sentinel
      then single_or_default_for sentinel x rest
      else Raise (ValueError "Sequence must contain only one element")
  end.

(** [single_or_default]. *)
Definition single_or_default_original (xs : list object)
    (default_value : object) (predicate : object -> bool) : M heap object :=
  sentinel <- new_list ;;
  the_value <- lift (single_or_default_for sentinel sentinel
                       (xs |> where_ predicate)) ;;
  if is_ the_value sentinel then ret default_value else ret the_value.
Definition single_or_default
  : object -> (object -> bool) -> Query (list object) (M heap object) :=
  queryize2 single_or_default_original.

(** [single]. *)
Definition single_original (xs : list object) (predicate : object -> bool)
  : M heap object :=
  sentinel <- new_list ;;
  result <- xs |> single_or_default sentinel predicate ;;
  if is_ result sentinel
  then raise (ValueError "Sequence must contain only one element")
  else ret result.
Definition single : (object -> bool) -> Query (list object) (M heap object) :=
  queryize1 single_original.

(** ** Dictionaries *)

(** Keys of a dictionary are compared with [==], which on the keys used
    here (integers, strings) is equality. *)
Class PyEq (K : Type) : Type := {
  eqb : K -> K -> bool;
  eqb_spec : forall a b, reflect (a = b) (eqb a b)
}.

#[export] Instance PyEq_int : PyEq Z := {| eqb := Z.eqb; eqb_spec := Z.eqb_spec |}.
#[export] Instance PyEq_str : PyEq string :=
  {| eqb := String.eqb; eqb_spec := String.eqb_spec |}.

(** A [dict] keeps its entries in the order in which their keys were first
    inserted; it is the list of its entries, without repeated keys. *)
Definition dict (K V : Type) : Type := list (K * V).

Section Dict.
Context {K V : Type} `{PyEq K}.

(** [d.get(k)], [None] when [k] is not a key. *)
Fixpoint dict_lookup (k : K) (d : dict K V) : option V :=
  match d with
  | [] => None
  | (k', v) :: rest => if eqb k k' then Some v else dict_lookup k rest
  end.

(** [k in d]. *)
Definition dict_contains (k : K) (d : dict K V) : bool :=
  match dict_lookup k d with
  | Some _ => true
  | None => false
  end.

(** [d.get(k, default)]. *)
Definition dict_get (k : K) (default : V) (d : dict K V) : V :=
  match dict_lookup k d with
  | Some v => v
  | None => default
  end.

(** [d[k]], which raises [KeyError] when [k] is not a key. *)
Definition dict_getitem (k : K) (d : dict K V) : result V :=
  match dict_lookup k d with
  | Some v => Return v
  | None => Raise KeyError
  end.

(** [d[k] = v]: the value of an existing key is replaced where it is, a
    new key goes to the end. *)
Fixpoint dict_setitem (k : K) (v : V) (d : dict K V) : dict K V :=
  match d with
  | [] => [(k, v)]
  | (k', v') :: rest =>
      if eqb k k' then (k', v) :: rest
      else (k', v') :: dict_setitem k v rest
  end.

(** [d.keys()]. *)
Definition dict_keys (d : dict K V) : list K := map fst d.
End Dict.

(** ** [to_dict] and [to_lookup] *)

(** A call of one of the two functions the caller passes in. *)
Inductive call (A : Type) : Type :=
| key_from_x_called (x : A)
| value_from_x_called (x : A).
Arguments key_from_x_called {A} x.
Arguments value_from_x_called {A} x.

(** The state of a building loop: the dictionary [d] and the calls of
    [key_from_x] and [value_from_x] made so far. *)
Record building (A K V : Type) : Type := {
  d : dict K V;
  calls : list (call A)
}.

Section Building.
Context {A K V W : Type} `{PyEq K}.
Variable key_from_x : A -> K.
Variable value_from_x : A -> V.

(** The state holds a dictionary with values of type [W]: [V] in
    [to_dict], lists of [V] in [to_lookup]. *)
Definition call_key_from_x (x : A) : M (building A K W) K :=
  fun s => (Return (key_from_x x),
            {| d := d s; calls := calls s ++ [key_from_x_called x] |}).

Definition call_value_from_x (x : A) : M (building A K W) V :=
  fun s => (Return (value_from_x x),
            {| d := d s; calls := calls s ++ [value_from_x_called x] |}).

Definition d_contains (k : K) : M (building A K W) bool :=
  fun s => (Return (dict_contains k (d s)), s).

Definition d_setitem (k : K) (w : W) : M (building A K W) unit :=
  fun s => (Return tt, {| d := dict_setitem k w (d s); calls := calls s |}).

Definition d_getitem (k : K) : M (building A K W) W :=
  fun s => (dict_getitem k (d s), s).

Definition return_d : M (building A K W) (dict K W) :=
  fun s => (Return (d s), s).

(** [d = {}] with no call made yet. *)
Definition start : building A K W := {| d := []; calls := [] |}.
End Building.

Section ToDict.
Context {A K V : Type} `{PyEq K}.
Variable key_from_x : A -> K.
Variable value_from_x : A -> V.

(** [repr] of a key and of an item, for the message of the error. *)
Variable repr_k : K -> string.
Variable repr_x : A -> string.

(** ['Key %r (for %r) is duplicate' % (k, x)]. *)
Definition duplicate_message (k : K) (x : A) : string :=
  ("Key " ++ repr_k k ++ " (for " ++ repr_x x ++ ") is duplicate")%string.

(** The loop of [to_dict]. *)
Fixpoint to_dict_for (xs : list A) : M (building A K V) unit :=
  match xs with
  | [] => ret tt
  | x :: rest =>
      k <- call_key_from_x key_from_x x ;;
      v <- call_value_from_x value_from_x x ;;
      present <- d_contains k ;;
      if present
      then raise (LookupError (duplicate_message k x))
      else d_setitem k v ;;; to_dict_for rest
  end.

(** [to_dict], run from [d = {}]: the outcome and the final state. *)
Definition to_dict_original (xs : list A)
  : result (dict K V) * building A K V :=
  (to_dict_for xs ;;; return_d) start.
End ToDict.

Section Lookup.
Context {A K V : Type} `{PyEq K}.
Variable key_from_x : A -> K.
Variable value_from_x : A -> V.

(** The loop of [to_lookup]: [d[k].append(v)] reads the list at [k] and
    extends it in place, [d[k] = [v]] adds a new key. *)
Fixpoint to_lookup_for (xs : list A) : M (building A K (list V)) unit :=
  match xs with
  | [] => ret tt
  | x :: rest =>
      k <- call_key_from_x key_from_x x ;;
      v <- call_value_from_x value_from_x x ;;
      present <- d_contains k ;;
      (if present
       then (vs <- d_getitem k ;; d_setitem k (vs ++ [v]))
       else d_setitem k [v]) ;;;
      to_lookup_for rest
  end.

(** [to_lookup], run from [d = {}]: the outcome and the final state. *)
Definition to_lookup_original (xs : list A)
  : result (dict K (list V)) * building A K (list V) :=
  (to_lookup_for xs ;;; return_d) start.
End Lookup.

(** ** [distinct] *)

Section Distinct.
Context {A : Type} `{PyEq A}.

(** The loop of [distinct] with its table of yielded items: an item is
    yielded unless [yielded_table.get(x, False)] is true. *)
Fixpoint distinct_for (yielded_table : dict A bool) (xs : list A) : list A :=
  match xs with
  | [] => []
  | x :: rest =>
      if dict_get x false yielded_table
      then distinct_for yielded_table rest
      else x :: distinct_for (dict_setitem x true yielded_table) rest
  end.

Definition distinct_original (xs : list A) : list A := distinct_for [] xs.
Definition distinct : Query (list A) (list A) := queryize0 distinct_original.
End Distinct.

(** ** Lazy sources: generators *)

(** A generator function returns a generator: a suspended frame and the
    code that resumes it.  Resuming either yields an item together with the
    frame to resume next, or ends ([StopIteration]).  A generator need not
    ever end, so the loops that consume one take [fuel], the number of times
    they may resume it; [None] says the loop was still running when the fuel
    ran out. *)
Module Lazy.

Record generator (A : Type) : Type := {
  frame : Type;
  entry : frame;
  next : frame -> option (A * frame)
}.

(** [iter(items)] for a list. *)
Definition iter {A} (items : list A) : generator A := {|
  frame := list A;
  entry := items;
  next := fun s => match s with
                   | [] => None
                   | x :: rest => Some (x, rest)
                   end
|}.

(** [repeat(x, n = None)]: [while True: yield x] when [n] is [None],
    [for i in range(n): yield x] otherwise. *)
Definition repeat {A} (x : A) (n : option Z) : generator A :=
  match n with
  | None => {| frame := unit; entry := tt; next := fun _ => Some (x, tt) |}
  | Some n => {| frame := Z;
                 entry := 0;
                 next := fun i => if i <? n then Some (x, i + 1) else None |}
  end.

(** [take]: the frame holds the position in [xs] and the counter [i];
    each resumption asks [xs] for an item first. *)
Definition take_original {A} (xs : generator A) (n : Z) : generator A := {|
  frame := frame xs * Z;
  entry := (entry xs, 0);
  next := fun s =>
    let (pos, i) := s in
    match next xs pos with
    | None => None
    | Some (x, pos') => if i <? n then Some (x, (pos', i + 1)) else None
    end
|}.
Definition take {A} : Z -> Query (generator A) (generator A) :=
  queryize1 take_original.

(** The loop inside [tuple(xs)] and [list(xs)]. *)
Fixpoint collect {A} (xs : generator A) (fuel : nat) (pos : frame xs)
  : option (list A) :=
  match fuel with
  | O => None
  | S fuel' =>
      match next xs pos with
      | None => Some []
      | Some (x, pos') => option_map (cons x) (collect xs fuel' pos')
      end
  end.

(** [to_tuple] and [to_list]. *)
Definition to_tuple_original {A} (fuel : nat) (xs : generator A)
  : option (list A) :=
  collect xs fuel (entry xs).
Definition to_tuple {A} (fuel : nat) : Query (generator A) (option (list A)) :=
  queryize0 (to_tuple_original fuel).

Definition to_list_original {A} (fuel : nat) (xs : generator A)
  : option (list A) :=
  collect xs fuel (entry xs).
Definition to_list {A} (fuel : nat) : Query (generator A) (option (list A)) :=
  queryize0 (to_list_original fuel).

(** The loop of [element_at_or_default], with its counter [i]. *)
Fixpoint element_at_or_default_for {A} (xs : generator A) (fuel : nat)
    (pos : frame xs) (i index : Z) (default_value : A) : option A :=
  match fuel with
  | O => None
  | S fuel' =>
      match next xs pos with
      | None => Some default_value
      | Some (x, pos') =>
          if i =? index then Some x
          else element_at_or_default_for xs fuel' pos' (i + 1) index
                 default_value
      end
  end.

(** [element_at_or_default]. *)
Definition element_at_or_default_original {A} (fuel : nat)
    (xs : generator A) (index : Z) (default_value : A) : option A :=
  element_at_or_default_for xs fuel (entry xs) 0 index default_value.
Definition element_at_or_default {A} (fuel : nat)
  : Z -> A -> Query (generator A) (option A) :=
  queryize2 (element_at_or_default_original fuel).

(** [element_at]: [Return None] says the scan was still running when the
    fuel ran out. *)
Definition element_at_original (fuel : nat) (xs : generator object)
    (index : Z) : M heap (option object) :=
  sentinel <- new_list ;;
  match xs |> element_at_or_default fuel index sentinel with
  | None => ret None
  | Some result =>
      if is_ result sentinel
      then raise (IndexError
                    ("Index " ++ format_d index ++ " is out of range")%string)
      else ret (Some result)
  end.
Definition element_at (fuel : nat)
  : Z -> Query (generator object) (M heap (option object)) :=
  queryize1 (element_at_original fuel).

End Lazy.

(** ** Chains of [order_by] and [then_by] *)

(** The key functions of a chain
    [order_by(k1) | then_by(k2) | ... | then_by(kn)], innermost first. *)
Inductive keys (A : Type) : Type -> Type :=
| OrderBy (K : Type) (ord : PyOrd K) (key_from_x : A -> K) : keys A K
| ThenBy (K1 K2 : Type) (ks : keys A K1) (ord : PyOrd K2)
    (key_from_x : A -> K2) : keys A (K1 * K2).
Arguments OrderBy {A K ord} key_from_x.
Arguments ThenBy {A K1 K2} ks {ord} key_from_x.

(** Attaching the queries of a chain, one after the other, to [xs]. *)
Fixpoint chain {A K} (ks : keys A K) (xs : pyobj A) : result (pyobj A) :=
  match ks with
  | OrderBy key_from_x => Return (xs |> order_by key_from_x)
  | ThenBy ks' key_from_x => chain ks' xs |>> then_by key_from_x
  end.

(** The composite key of a chain: each [then_by] pairs the composite key
    built so far with its own key. *)
Fixpoint composite {A K} (ks : keys A K) : A -> K :=
  match ks with
  | OrderBy key_from_x => key_from_x
  | ThenBy ks' key_from_x => fun x => (composite ks' x, key_from_x x)
  end.

(** How the interpreter compares the composite keys of a chain. *)
Fixpoint composite_ord {A K} (ks : keys A K) : PyOrd K :=
  match ks with
  | @OrderBy _ _ ord _ => ord
  | @ThenBy _ _ _ ks' ord _ => @PyOrd_tuple _ (composite_ord ks') _ ord
  end.

(** ** The other operators over a finite source *)

(** [__builtins__.sum]: the items are added to [0] from left to right. *)
Definition builtins_sum (numbers : list Z) : Z := fold_left Z.add numbers 0.

(** [__builtins__.max] and [__builtins__.min] of numbers: the first item is
    kept until a later one is greater (smaller); an empty argument is a
    [ValueError]. *)
Definition builtins_max (numbers : list Z) : result Z :=
  match numbers with
  | [] => Raise (ValueError "max() arg is an empty sequence")
  | y :: rest =>
      Return (fold_left (fun maxval item => if maxval <? item then item else maxval)
                rest y)
  end.

Definition builtins_min (numbers : list Z) : result Z :=
  match numbers with
  | [] => Raise (ValueError "min() arg is an empty sequence")
  | y :: rest =>
      Return (fold_left (fun minval item => if item <? minval then item else minval)
                rest y)
  end.

(** [empty]: the empty tuple. *)
Definition empty {A} : list A := [].

Section Operators.
Context {A : Type}.

(** [all]. *)
Fixpoint all_original (xs : list A) (predicate : A -> bool) : bool :=
  match xs with
  | [] => true
  | x :: rest =>
      if negb (predicate x) then false else all_original rest predicate
  end.
Definition all : (A -> bool) -> Query (list A) bool := queryize1 all_original.

(** [any]. *)
Fixpoint any_original (xs : list A) (predicate : A -> bool) : bool :=
  match xs with
  | [] => false
  | x :: rest => if predicate x then true else any_original rest predicate
  end.
Definition any : (A -> bool) -> Query (list A) bool := queryize1 any_original.

(** [count]: [sum(1 for x in xs | where(predicate))]. *)
Definition count_original (xs : list A) (predicate : A -> bool) : Z :=
  builtins_sum (map (fun _ => 1) (xs |> where_ predicate)).
Definition count : (A -> bool) -> Query (list A) Z := queryize1 count_original.

(** [sum]. *)
Definition sum_original (xs : list A) (y_from_x : A -> Z) : Z :=
  builtins_sum (map y_from_x xs).
Definition sum : (A -> Z) -> Query (list A) Z := queryize1 sum_original.

(** [max] and [min]. *)
Definition max_original (xs : list A) (y_from_x : A -> Z) : result Z :=
  builtins_max (map y_from_x xs).
Definition max : (A -> Z) -> Query (list A) (result Z) :=
  queryize1 max_original.

Definition min_original (xs : list A) (y_from_x : A -> Z) : result Z :=
  builtins_min (map y_from_x xs).
Definition min : (A -> Z) -> Query (list A) (result Z) :=
  queryize1 min_original.

(** The loop of [average] with its two accumulators. *)
Fixpoint average_for (number_from_x : A -> Z) (sum count : Z) (xs : list A)
  : Z * Z :=
  match xs with
  | [] => (sum, count)
  | x :: rest => average_for number_from_x (sum + number_from_x x) (count + 1) rest
  end.

(** [average]; [divide] is the host's [/] on numbers, with results in [Q]. *)
Definition average_original {Q : Type} (divide : Z -> Z -> Q) (xs : list A)
    (number_from_x : A -> Z) : result Q :=
  let (sum, count) := average_for number_from_x 0 0 xs in
  if count =? 0
  then Raise (ValueError "Sequence must contain some element")
  else Return (divide sum count).
Definition average {Q : Type} (divide : Z -> Z -> Q)
  : (A -> Z) -> Query (list A) (result Q) :=
  queryize1 (average_original divide).

(** [concat]: the items of [xs], then the items of [ys]. *)
Fixpoint concat_original (xs ys : list A) : list A :=
  match xs with
  | [] => ys
  | x :: rest => x :: concat_original rest ys
  end.
Definition concat : list A -> Query (list A) (list A) :=
  queryize1 concat_original.

(** The loop of [default_if_empty] with its flag. *)
Fixpoint default_if_empty_for (has_value : bool) (xs : list A)
    (default_value : A) : list A :=
  match xs with
  | [] => if negb has_value then [default_value] else []
  | x :: rest => x :: default_if_empty_for true rest default_value
  end.
Definition default_if_empty_original (xs : list A) (default_value : A)
  : list A :=
  default_if_empty_for false xs default_value.
Definition default_if_empty : A -> Query (list A) (list A) :=
  queryize1 default_if_empty_original.

(** [reverse]: [reversed(xs | to_list())]. *)
Definition reverse_original (xs : list A) : list A := rev xs.
Definition reverse : Query (list A) (list A) := queryize0 reverse_original.

(** [select]. *)
Fixpoint select_original {B} (xs : list A) (y_from_x : A -> B) : list B :=
  match xs with
  | [] => []
  | x :: rest => y_from_x x :: select_original rest y_from_x
  end.
Definition select {B} : (A -> B) -> Query (list A) (list B) :=
  queryize1 select_original.

(** The loop of [select_with_index] with its counter. *)
Fixpoint select_with_index_for {B} (i : Z) (xs : list A)
    (y_from_x_i : A -> Z -> B) : list B :=
  match xs with
  | [] => []
  | x :: rest => y_from_x_i x i :: select_with_index_for (i + 1) rest y_from_x_i
  end.
Definition select_with_index_original {B} (xs : list A)
    (y_from_x_i : A -> Z -> B) : list B :=
  select_with_index_for 0 xs y_from_x_i.
Definition select_with_index {B}
  : (A -> Z -> B) -> Query (list A) (list B) :=
  queryize1 select_with_index_original.

(** [select_many]. *)
Fixpoint select_many_original {B} (xs : list A) (ys_from_x : A -> list B)
  : list B :=
  match xs with
  | [] => []
  | x :: rest => ys_from_x x ++ select_many_original rest ys_from_x
  end.
Definition select_many {B} : (A -> list B) -> Query (list A) (list B) :=
  queryize1 select_many_original.

(** The loop of [select_many_with_index]. *)
Fixpoint select_many_with_index_for {B} (i : Z) (xs : list A)
    (ys_from_x_i : A -> Z -> list B) : list B :=
  match xs with
  | [] => []
  | x :: rest =>
      ys_from_x_i x i ++ select_many_with_index_for (i + 1) rest ys_from_x_i
  end.
Definition select_many_with_index_original {B} (xs : list A)
    (ys_from_x_i : A -> Z -> list B) : list B :=
  select_many_with_index_for 0 xs ys_from_x_i.
Definition select_many_with_index {B}
  : (A -> Z -> list B) -> Query (list A) (list B) :=
  queryize1 select_many_with_index_original.

(** The loop of [skip]: the counter grows at every item. *)
Fixpoint skip_for (i : Z) (xs : list A) (n : Z) : list A :=
  match xs with
  | [] => []
  | x :: rest =>
      if n <=? i then x :: skip_for (i + 1) rest n
      else skip_for (i + 1) rest n
  end.
Definition skip_original (xs : list A) (n : Z) : list A := skip_for 0 xs n.
Definition skip : Z -> Query (list A) (list A) := queryize1 skip_original.

(** The loop of [skip_while] with its flag. *)
Fixpoint skip_while_for (skipping : bool) (xs : list A)
    (predicate : A -> bool) : list A :=
  match xs with
  | [] => []
  | x :: rest =>
      if skipping && predicate x then skip_while_for skipping rest predicate
      else x :: skip_while_for false rest predicate
  end.
Definition skip_while_original (xs : list A) (predicate : A -> bool)
  : list A :=
  skip_while_for true xs predicate.
Definition skip_while : (A -> bool) -> Query (list A) (list A) :=
  queryize1 skip_while_original.

(** The loop of [skip_while_with_index]. *)
Fixpoint skip_while_with_index_for (skipping : bool) (i : Z) (xs : list A)
    (predicate_with_index : A -> Z -> bool) : list A :=
  match xs with
  | [] => []
  | x :: rest =>
      if skipping && predicate_with_index x i
      then skip_while_with_index_for skipping (i + 1) rest predicate_with_index
      else x :: skip_while_with_index_for false (i + 1) rest
                  predicate_with_index
  end.
Definition skip_while_with_index_original (xs : list A)
    (predicate_with_index : A -> Z -> bool) : list A :=
  skip_while_with_index_for true 0 xs predicate_with_index.
Definition skip_while_with_index
  : (A -> Z -> bool) -> Query (list A) (list A) :=
  queryize1 skip_while_with_index_original.

(** The loop of [take] over a finite source: [return] ends it. *)
Fixpoint take_for (i : Z) (xs : list A) (n : Z) : list A :=
  match xs with
  | [] => []
  | x :: rest => if i <? n then x :: take_for (i + 1) rest n else []
  end.
Definition take_original (xs : list A) (n : Z) : list A := take_for 0 xs n.
Definition take : Z -> Query (list A) (list A) := queryize1 take_original.

(** [take_while]: [break] ends the loop. *)
Fixpoint take_while_original (xs : list A) (predicate : A -> bool) : list A :=
  match xs with
  | [] => []
  | x :: rest =>
      if predicate x then x :: take_while_original rest predicate else []
  end.
Definition take_while : (A -> bool) -> Query (list A) (list A) :=
  queryize1 take_while_original.

(** The loop of [take_while_with_index]. *)
Fixpoint take_while_with_index_for (i : Z) (xs : list A)
    (predicate_with_index : A -> Z -> bool) : list A :=
  match xs with
  | [] => []
  | x :: rest =>
      if predicate_with_index x i
      then x :: take_while_with_index_for (i + 1) rest predicate_with_index
      else []
  end.
Definition take_while_with_index_original (xs : list A)
    (predicate_with_index : A -> Z -> bool) : list A :=
  take_while_with_index_for 0 xs predicate_with_index.
Definition take_while_with_index
  : (A -> Z -> bool) -> Query (list A) (list A) :=
  queryize1 take_while_with_index_original.

(** The loop of [where_with_index]. *)
Fixpoint where_with_index_for (i : Z) (xs : list A)
    (predicate_with_index : A -> Z -> bool) : list A :=
  match xs with
  | [] => []
  | x :: rest =>
      if predicate_with_index x i
      then x :: where_with_index_for (i + 1) rest predicate_with_index
      else where_with_index_for (i + 1) rest predicate_with_index
  end.
Definition where_with_index_original (xs : list A)
    (predicate_with_index : A -> Z -> bool) : list A :=
  where_with_index_for 0 xs predicate_with_index.
Definition where_with_index
  : (A -> Z -> bool) -> Query (list A) (list A) :=
  queryize1 where_with_index_original.
End Operators.

Section Membership.
Context {A : Type} `{PyEq A}.

(** [contains]: [xs | any(lambda x: x == the_x)]. *)
Definition contains_original (xs : list A) (the_x : A) : bool :=
  xs |> any (fun x => eqb x the_x).
Definition contains : A -> Query (list A) bool := queryize1 contains_original.

(** [except_from]: the items [x] of [xs] for which [xsd | contains(x)] is
    false; [xsd] is a sequence that can be scanned again for every item. *)
Fixpoint except_from_original (xs xsd : list A) : list A :=
  match xs with
  | [] => []
  | x :: rest =>
      if xsd |> contains x then except_from_original rest xsd
      else x :: except_from_original rest xsd
  end.
Definition except_from : list A -> Query (list A) (list A) :=
  queryize1 except_from_original.
End Membership.

(** The loop of [last_or_default]: [last_value] is the last item seen that
    satisfies the predicate. *)
Fixpoint last_or_default_for (last_value : object) (xs : list object)
    (predicate : object -> bool) : object :=
  match xs with
  | [] => last_value
  | x :: rest =>
      if predicate x then last_or_default_for x rest predicate
      else last_or_default_for last_value rest predicate
  end.

(** [last_or_default]. *)
Definition last_or_default_original (xs : list object)
    (default_value : object) (predicate : object -> bool) : M heap object :=
  sentinel <- new_list ;;
  let last_value := last_or_default_for sentinel xs predicate in
  if is_ last_value sentinel then ret default_value else ret last_value.
Definition last_or_default
  : object -> (object -> bool) -> Query (list object) (M heap object) :=
  queryize2 last_or_default_original.

(** [last]. *)
Definition last_original (xs : list object) (predicate : object -> bool)
  : M heap object :=
  sentinel <- new_list ;;
  result <- xs |> last_or_default sentinel predicate ;;
  if is_ result sentinel
  then raise (ValueError "Sequence must contain some element")
  else ret result.
Definition last : (object -> bool) -> Query (list object) (M heap object) :=
  queryize1 last_original.

(** ** More consumers and transformers of generators *)

Module LazyOps.
Import Lazy.

(** [select] over a generator: every resumption resumes [xs] once. *)
Definition select_original {A B} (xs : generator A) (y_from_x : A -> B)
  : generator B := {|
  frame := frame xs;
  entry := entry xs;
  next := fun pos =>
    match next xs pos with
    | None => None
    | Some (x, pos') => Some (y_from_x x, pos')
    end
|}.
Definition select {A B} : (A -> B) -> Query (generator A) (generator B) :=
  queryize1 select_original.

(** [take_while] over a generator: [break] ends it. *)
Definition take_while_original {A} (xs : generator A) (predicate : A -> bool)
  : generator A := {|
  frame := frame xs;
  entry := entry xs;
  next := fun pos =>
    match next xs pos with
    | None => None
    | Some (x, pos') => if predicate x then Some (x, pos') else None
    end
|}.
Definition take_while {A}
  : (A -> bool) -> Query (generator A) (generator A) :=
  queryize1 take_while_original.

(** [concat] over generators: the frame is in the first loop or in the
    second; when [xs] ends the second loop starts [ys]. *)
Definition concat_original {A} (xs ys : generator A) : generator A := {|
  frame := (frame xs + frame ys)%type;
  entry := inl (entry xs);
  next := fun s =>
    match s with
    | inl pos =>
        match next xs pos with
        | Some (x, pos') => Some (x, inl pos')
        | None =>
            match next ys (entry ys) with
            | Some (y, pos') => Some (y, inr pos')
            | None => None
            end
        end
    | inr pos =>
        match next ys pos with
        | Some (y, pos') => Some (y, inr pos')
        | None => None
        end
    end
|}.
Definition concat {A} : generator A -> Query (generator A) (generator A) :=
  queryize1 concat_original.

(** The loop of [any] over a generator. *)
Fixpoint any_for {A} (xs : generator A) (fuel : nat) (pos : frame xs)
    (predicate : A -> bool) : option bool :=
  match fuel with
  | O => None
  | S fuel' =>
      match next xs pos with
      | None => Some false
      | Some (x, pos') =>
          if predicate x then Some true else any_for xs fuel' pos' predicate
      end
  end.
Definition any_original {A} (fuel : nat) (xs : generator A)
    (predicate : A -> bool) : option bool :=
  any_for xs fuel (entry xs) predicate.
Definition any {A} (fuel : nat)
  : (A -> bool) -> Query (generator A) (option bool) :=
  queryize1 (any_original fuel).

(** The loop of [first_or_default] over a generator. *)
Fixpoint first_or_default_for {A} (xs : generator A) (fuel : nat)
    (pos : frame xs) (default_value : A) (predicate : A -> bool) : option A :=
  match fuel with
  | O => None
  | S fuel' =>
      match next xs pos with
      | None => Some default_value
      | Some (x, pos') =>
          if predicate x then Some x
          else first_or_default_for xs fuel' pos' default_value predicate
      end
  end.
Definition first_or_default_original {A} (fuel : nat) (xs : generator A)
    (default_value : A) (predicate : A -> bool) : option A :=
  first_or_default_for xs fuel (entry xs) default_value predicate.
Definition first_or_default {A} (fuel : nat)
  : A -> (A -> bool) -> Query (generator A) (option A) :=
  queryize2 (first_or_default_original fuel).

End LazyOps.

(* ================================================================== *)
(** * Part II. Specifications *)
(* ================================================================== *)

(** ** Orderings *)

(** [<] is a strict weak order: two keys are never below each other, and a
    key that is below another is below, or the other above, any third one.
    Irreflexivity and transitivity follow. *)
Class StrictWeakOrder (K : Type) (ord : PyOrd K) : Prop := {
  py_lt_asym : forall a b, py_lt a b = true -> py_lt b a = false;
  py_lt_cotrans : forall a b c,
    py_lt a c = true -> py_lt a b = true \/ py_lt b c = true
}.
Arguments StrictWeakOrder {K} ord.

(** [==] and [<] agree: two keys are [==] exactly when neither is [<] the
    other, as for integers and booleans, and then for the tuples built
    from them. *)
Class PyOrdLaws (K : Type) (ord : PyOrd K) : Prop := {
  py_strict_weak :: StrictWeakOrder ord;
  py_eq_iff : forall a b,
    py_eq a b = true <-> py_lt a b = false /\ py_lt b a = false
}.
Arguments PyOrdLaws {K} ord.

(** Two keys tie when neither is below the other. *)
Definition tie {K} (lt : K -> K -> bool) (a b : K) : bool :=
  negb (lt a b) && negb (lt b a).

(** [out] is [s] stably sorted by [key] under [lt]: a permutation of [s],
    no key is below the key of an earlier item, and the items whose keys tie
    with a given key come in the order they have in [s]. *)
Definition stable_sorted_by {A K} (lt : K -> K -> bool) (key : A -> K)
    (s out : list A) : Prop :=
  Permutation s out /\
  StronglySorted (fun x y => lt (key y) (key x) = false) out /\
  forall c, filter (fun x => tie lt (key x) c) out
          = filter (fun x => tie lt (key x) c) s.

(** The lexicographic order on pairs, in the words of the specification:
    the primary key first, the secondary key as the tie-break. *)
Definition lexicographic {K1 K2} (lt1 : K1 -> K1 -> bool)
    (lt2 : K2 -> K2 -> bool) (a b : K1 * K2) : bool :=
  lt1 (fst a) (fst b) || (tie lt1 (fst a) (fst b) && lt2 (snd a) (snd b)).

(** The lexicographic order on the composite keys of a chain. *)
Fixpoint chain_lexicographic {A K} (ks : keys A K) : K -> K -> bool :=
  match ks with
  | @OrderBy _ _ ord _ => @py_lt _ ord
  | @ThenBy _ _ _ ks' ord _ =>
      lexicographic (chain_lexicographic ks') (@py_lt _ ord)
  end.

(** Every key function of a chain has a lawful ordering. *)
Fixpoint lawful {A K} (ks : keys A K) : Prop :=
  match ks with
  | @OrderBy _ _ ord _ => PyOrdLaws ord
  | @ThenBy _ _ _ ks' ord _ => lawful ks' /\ PyOrdLaws ord
  end.

(** ** Sequences and groupings *)

Section FirstOccurrences.
Context {A : Type} `{PyEq A}.

(** The first occurrence of every value of [l], in the order of [l]:
    an item is kept and every later item equal to it is dropped. *)
Fixpoint first_occurrences (l : list A) : list A :=
  match l with
  | [] => []
  | x :: rest =>
      x :: filter (fun y => negb (eqb y x)) (first_occurrences rest)
  end.

(** [x in l]. *)
Definition occurs (x : A) (l : list A) : bool := existsb (eqb x) l.
End FirstOccurrences.

Section Grouping.
Context {A K V : Type} `{PyEq K}.
Variable key_from_x : A -> K.
Variable value_from_x : A -> V.

(** The entry an item contributes to a dictionary. *)
Definition entry_of (x : A) : K * V := (key_from_x x, value_from_x x).

(** One call of [key_from_x], then one of [value_from_x], for every item
    of [s] in turn. *)
Definition calls_for (s : list A) : list (call A) :=
  flat_map (fun x => [key_from_x_called x; value_from_x_called x]) s.

(** The values of the items of [s] whose key is [k], in the order of
    [s]. *)
Definition values_of (k : K) (s : list A) : list V :=
  map value_from_x (filter (fun x => eqb (key_from_x x) k) s).

(** The lookup of [s]: the keys in the order they are first seen, each
    with the values of its items. *)
Definition grouping (s : list A) : dict K (list V) :=
  map (fun k => (k, values_of k s)) (first_occurrences (map key_from_x s)).
End Grouping.

(** ** Items, objects and failures used below *)

(** [x] is the first item of [s] that satisfies [p]. *)
Definition first_match {A} (p : A -> bool) (s : list A) (x : A) : Prop :=
  exists pre post,
    s = pre ++ x :: post /\ (forall y, In y pre -> p y = false) /\ p x = true.

(** An integer object. *)
Definition zero : object := {| id := 0; value := VInt 0 |}.

(** An item that is an empty list, like the marker, but is not the marker. *)
Definition an_empty_list : object := {| id := 1; value := VList [] |}.

(** The failure of [single] and [single_or_default]. *)
Definition only_one : exn := ValueError "Sequence must contain only one element".

(** The first character of a string, [x[0]], on strings that are not
    empty. *)
Definition first_character (x : string) : string :=
  match x with
  | String c _ => String c EmptyString
  | EmptyString => EmptyString
  end.

(** The positions [k, k + 1, ...] of the items of a sequence. *)
Definition positions_from {A} (k : nat) (s : list A) : list Z :=
  map Z.of_nat (seq k (List.length s)).

(** The values of a dictionary, one sequence after the other. *)
Definition all_values {K V} (dd : dict K (list V)) : list V :=
  List.concat (map snd dd).

(* ================================================================== *)
(** * Part III. Proofs *)
(* ================================================================== *)

Unset Implicit Arguments.

(** ** The examples of the docstrings *)

Example then_by_doctest_1 :
  Seq (range 10) |> order_by (fun x => x mod 2) |> then_by (fun x => - x)
    |>> to_tuple
  = Return [8; 6; 4; 2; 0; 9; 7; 5; 3; 1].
Proof. reflexivity. Qed.

Example then_by_doctest_2 :
  Seq (range 10) |> order_by (fun x => x mod 2)
    |> then_by (fun x => negb (x mod 4 =? 0))
    |>> then_by (fun x => - x)
    |>> to_tuple
  = Return [8; 4; 0; 6; 2; 9; 7; 5; 3; 1].
Proof. reflexivity. Qed.

Example repeat_doctest :
  Lazy.repeat 1 None |> Lazy.take 5 |> Lazy.to_tuple 6 = Some [1; 1; 1; 1; 1].
Proof. reflexivity. Qed.

Example element_at_doctest :
  fst ((Lazy.iter [] |> Lazy.element_at 1 0) 0%nat)
  = Raise (IndexError "Index 0 is out of range").
Proof. reflexivity. Qed.

Example distinct_doctest : [1; 2; 3; 1; 2; 3] |> distinct = [1; 2; 3].
Proof. reflexivity. Qed.

(** By contrast an error of [order_by] is deferred: ordering a value that is
    not iterable returns an [OrderedSequence], and only iterating it
    raises. *)
Example order_by_defers :
  is_OrderedSequence (@Int Z 5 |> order_by (fun x => x)) = true /\
  @Int Z 5 |> order_by (fun x => x) |> to_list
    = Raise (TypeError "'int' object is not iterable").
Proof. split; reflexivity. Qed.

(** ** The sort *)

Section SortFacts.
Context {A K : Type} (ord : PyOrd K) (key : A -> K).

Lemma insert_by_perm x l : Permutation (x :: l) (insert_by key x l).
Proof.
  induction l as [|y rest IH]; simpl; [reflexivity|].
  destruct (py_lt (key y) (key x)); [|reflexivity].
  rewrite perm_swap. now apply perm_skip.
Qed.

Lemma list_sort_perm l : Permutation l (list_sort key l).
Proof.
  induction l as [|x rest IH]; simpl; [constructor|].
  rewrite <- insert_by_perm. now apply perm_skip.
Qed.

Context {SWO : StrictWeakOrder ord}.

Lemma py_lt_irrefl a : py_lt a a = false.
Proof.
  destruct (py_lt a a) eqn:Haa; [|reflexivity].
  pose proof (py_lt_asym _ _ Haa). congruence.
Qed.

Lemma py_lt_trans a b c :
  py_lt a b = true -> py_lt b c = true -> py_lt a c = true.
Proof.
  intros Hab Hbc. destruct (py_lt_cotrans _ c _ Hab) as [Hac|Hcb];
    [exact Hac|].
  pose proof (py_lt_asym _ _ Hbc). congruence.
Qed.

Lemma py_le_trans a b c :
  py_lt b a = false -> py_lt c b = false -> py_lt c a = false.
Proof.
  intros Hab Hbc. destruct (py_lt c a) eqn:Hca; [|reflexivity].
  destruct (py_lt_cotrans _ b _ Hca); congruence.
Qed.

Lemma tie_below a b c :
  py_lt a b = true -> tie py_lt a c = true -> tie py_lt b c = false.
Proof.
  unfold tie. intros Hab Hac.
  apply andb_true_iff in Hac as [Hac Hca].
  apply negb_true_iff in Hac, Hca.
  destruct (py_lt_cotrans _ c _ Hab) as [Hlt|Hlt]; [congruence|].
  rewrite Hlt. simpl. now rewrite andb_false_r.
Qed.

Local Abbreviation key_le := (fun x y : A => py_lt (key y) (key x) = false).

Lemma insert_by_sorted x l :
  StronglySorted key_le l -> StronglySorted key_le (insert_by key x l).
Proof.
  induction 1 as [|y rest Hrest IH Hy]; simpl.
  - repeat constructor.
  - destruct (py_lt (key y) (key x)) eqn:Hyx.
    + constructor; [exact IH|].
      apply (Permutation_Forall (insert_by_perm x rest)).
      constructor; [|exact Hy].
      now apply py_lt_asym.
    + constructor; [now constructor|].
      constructor; [exact Hyx|].
      apply Forall_forall. intros z Hz.
      rewrite Forall_forall in Hy. specialize (Hy z Hz).
      cbn beta in *. now apply py_le_trans with (b := key y).
Qed.

Lemma list_sort_sorted l : StronglySorted key_le (list_sort key l).
Proof.
  induction l as [|x rest IH]; simpl; [constructor|].
  now apply insert_by_sorted.
Qed.

Lemma filter_insert_by c x l :
  filter (fun z => tie py_lt (key z) c) (insert_by key x l)
  = filter (fun z => tie py_lt (key z) c) (x :: l).
Proof.
  induction l as [|y rest IH]; [reflexivity|].
  cbn [insert_by].
  destruct (py_lt (key y) (key x)) eqn:Hyx; [|reflexivity].
  cbn [filter] in *. rewrite IH.
  destruct (tie py_lt (key y) c) eqn:Hy; [|reflexivity].
  now rewrite (tie_below _ _ _ Hyx Hy).
Qed.

Lemma filter_list_sort c l :
  filter (fun z => tie py_lt (key z) c) (list_sort key l)
  = filter (fun z => tie py_lt (key z) c) l.
Proof.
  induction l as [|x rest IH]; [reflexivity|].
  cbn [list_sort]. rewrite filter_insert_by. cbn [filter].
  now rewrite IH.
Qed.

(** The modelled sort sorts stably. *)
Lemma list_sort_stable_sorted l :
  stable_sorted_by py_lt key l (list_sort key l).
Proof.
  split; [apply list_sort_perm|].
  split; [apply list_sort_sorted|].
  intros c. apply filter_list_sort.
Qed.

Lemma tie_refl a : tie py_lt a a = true.
Proof. unfold tie. now rewrite py_lt_irrefl. Qed.

(** A stable sort has one possible outcome, so the choice of the
    algorithm that models the builtin does not matter. *)
Lemma stable_sorted_unique s out1 out2 :
  stable_sorted_by py_lt key s out1 ->
  stable_sorted_by py_lt key s out2 ->
  out1 = out2.
Proof.
  intros (P1 & S1 & F1) (P2 & S2 & F2).
  assert (P : Permutation out1 out2) by (now rewrite <- P1).
  assert (F : forall c, filter (fun x => tie py_lt (key x) c) out1
                      = filter (fun x => tie py_lt (key x) c) out2)
    by (intros c; now rewrite F1, F2).
  clear P1 P2 F1 F2 s.
  revert out2 S2 P F.
  induction S1 as [|x l1 Hl1 IH Hx]; intros out2 S2 P F.
  - now apply Permutation_nil in P.
  - destruct out2 as [|y l2];
      [apply Permutation_sym, Permutation_nil in P; discriminate|].
    inversion S2 as [|? ? Hl2 Hy]; subst.
    assert (Hxy : py_lt (key y) (key x) = false).
    { assert (Hin : In y (x :: l1))
        by (apply (Permutation_in y (Permutation_sym P)); now left).
      destruct Hin as [->|Hin]; [apply py_lt_irrefl|].
      rewrite Forall_forall in Hx. exact (Hx y Hin). }
    assert (Hyx : py_lt (key x) (key y) = false).
    { assert (Hin : In x (y :: l2))
        by (apply (Permutation_in x P); now left).
      destruct Hin as [->|Hin]; [apply py_lt_irrefl|].
      rewrite Forall_forall in Hy. exact (Hy x Hin). }
    assert (E : x = y).
    { specialize (F (key x)). cbn [filter] in F.
      rewrite tie_refl in F.
      unfold tie at 2 in F. rewrite Hxy, Hyx in F. simpl in F.
      congruence. }
    subst y. f_equal.
    apply IH; [exact Hl2|now apply Permutation_cons_inv in P|].
    intros c. specialize (F c). cbn [filter] in F.
    destruct (tie py_lt (key x) c); congruence.
Qed.
End SortFacts.

(** The sort looks at the ordering of the keys through [<] only. *)
Lemma list_sort_ext {A K} (ord1 ord2 : PyOrd K) (key : A -> K) l :
  (forall a b, @py_lt _ ord1 a b = @py_lt _ ord2 a b) ->
  @list_sort A K ord1 key l = @list_sort A K ord2 key l.
Proof.
  intros E. induction l as [|x rest IH]; [reflexivity|].
  simpl. rewrite IH. generalize (list_sort (H := ord2) key rest).
  intros l. induction l as [|y l' IHl]; [reflexivity|].
  simpl. now rewrite E, IHl.
Qed.

(** ** Orderings of the builtin keys and of tuples *)

Lemma tie_true {K} (lt : K -> K -> bool) a b :
  tie lt a b = true <-> lt a b = false /\ lt b a = false.
Proof.
  unfold tie. rewrite andb_true_iff, !negb_true_iff. reflexivity.
Qed.

Lemma tie_sym {K} (lt : K -> K -> bool) a b : tie lt a b = tie lt b a.
Proof. unfold tie. apply andb_comm. Qed.

#[export] Instance StrictWeakOrder_int : StrictWeakOrder PyOrd_int.
Proof.
  split; simpl.
  - intros a b Hab. apply Z.ltb_lt in Hab. apply Z.ltb_ge. lia.
  - intros a b c Hac. apply Z.ltb_lt in Hac.
    destruct (Z.ltb_spec a b); [now left|right]. apply Z.ltb_lt. lia.
Qed.

#[export] Instance PyOrdLaws_int : PyOrdLaws PyOrd_int.
Proof.
  split; [exact StrictWeakOrder_int|]. simpl. intros a b.
  rewrite Z.eqb_eq, !Z.ltb_ge. lia.
Qed.

#[export] Instance StrictWeakOrder_bool : StrictWeakOrder PyOrd_bool.
Proof. split; simpl; intros [] []; try intros []; simpl; auto. Qed.

#[export] Instance PyOrdLaws_bool : PyOrdLaws PyOrd_bool.
Proof.
  split; [exact StrictWeakOrder_bool|]. simpl.
  intros [] []; simpl; intuition discriminate.
Qed.

Section Lexicographic.
Context {K1 K2 : Type} (ord1 : PyOrd K1) (ord2 : PyOrd K2).
Context {L1 : PyOrdLaws ord1} {L2 : PyOrdLaws ord2}.

(** Under the laws, the interpreter's comparison of pairs is the
    lexicographic order. *)
Lemma tuple_lt_lexicographic (a b : K1 * K2) :
  py_lt a b = lexicographic py_lt py_lt a b.
Proof.
  unfold lexicographic. cbn [py_lt PyOrd_tuple].
  destruct (py_eq (fst a) (fst b)) eqn:E1.
  - pose proof (proj1 (py_eq_iff _ _) E1) as [Hab Hba].
    unfold tie. rewrite Hab, Hba. cbn.
    destruct (py_eq (snd a) (snd b)) eqn:E2; [|reflexivity].
    now destruct (proj1 (py_eq_iff _ _) E2) as [-> _].
  - destruct (tie py_lt (fst a) (fst b)) eqn:T.
    + apply tie_true, py_eq_iff in T. congruence.
    + now rewrite orb_false_r.
Qed.

Lemma lexicographic_asym (a b : K1 * K2) :
  lexicographic py_lt py_lt a b = true ->
  lexicographic py_lt py_lt b a = false.
Proof.
  unfold lexicographic. intros Hab.
  apply orb_true_iff in Hab as [H1|H1].
  - pose proof (py_lt_asym _ _ H1) as H1'.
    unfold tie. now rewrite H1, H1'.
  - apply andb_true_iff in H1 as [T H2].
    rewrite (tie_sym _ (fst b)), T.
    apply tie_true in T as [_ ->].
    now rewrite (py_lt_asym _ _ H2).
Qed.

Lemma lexicographic_cotrans (a b c : K1 * K2) :
  lexicographic py_lt py_lt a c = true ->
  lexicographic py_lt py_lt a b = true \/
  lexicographic py_lt py_lt b c = true.
Proof.
  unfold lexicographic. intros Hac.
  apply orb_true_iff in Hac as [H1|H1].
  - destruct (py_lt_cotrans _ (fst b) _ H1) as [-> | ->]; auto.
  - apply andb_true_iff in H1 as [T H2].
    pose proof (proj1 (tie_true _ _ _) T) as [Tac Tca].
    destruct (py_lt (fst a) (fst b)) eqn:Hab; [now left|].
    destruct (py_lt (fst b) (fst a)) eqn:Hba.
    + right. destruct (py_lt_cotrans _ (fst c) _ Hba) as [-> | ?];
        [reflexivity|congruence].
    + assert (Tbc : tie py_lt (fst b) (fst c) = true).
      { apply tie_true. split.
        - apply (@py_le_trans _ ord1 _) with (b := fst a); assumption.
        - apply (@py_le_trans _ ord1 _) with (b := fst a); assumption. }
      assert (Tab : tie py_lt (fst a) (fst b) = true)
        by (apply tie_true; now split).
      rewrite Tab, Tbc. cbn.
      destruct (py_lt_cotrans _ (snd b) _ H2) as [-> | ->]; auto.
      right. apply orb_true_r.
Qed.

#[export] Instance StrictWeakOrder_tuple
  : StrictWeakOrder (@PyOrd_tuple _ ord1 _ ord2).
Proof.
  split.
  - intros a b. rewrite !tuple_lt_lexicographic. apply lexicographic_asym.
  - intros a b c. rewrite !tuple_lt_lexicographic.
    apply lexicographic_cotrans.
Qed.

#[export] Instance PyOrdLaws_tuple : PyOrdLaws (@PyOrd_tuple _ ord1 _ ord2).
Proof.
  split; [exact StrictWeakOrder_tuple|].
  intros a b. rewrite !tuple_lt_lexicographic.
  unfold lexicographic. cbn [py_eq PyOrd_tuple].
  rewrite andb_true_iff, !orb_false_iff, !andb_false_iff, !py_eq_iff.
  rewrite (tie_sym _ (fst b)).
  destruct (tie py_lt (fst a) (fst b)) eqn:T.
  - apply tie_true in T. intuition congruence.
  - split.
    + intros [[Hab Hba] _]. exfalso.
      assert (tie py_lt (fst a) (fst b) = true) by (now apply tie_true).
      congruence.
    + intros [[Hab _] [Hba _]]. exfalso.
      assert (tie py_lt (fst a) (fst b) = true) by (now apply tie_true).
      congruence.
Qed.
End Lexicographic.

(** ** [order_by] *)

Lemma StronglySorted_map {A K} (R : K -> K -> Prop) (f : A -> K) l :
  StronglySorted (fun x y => R (f x) (f y)) l -> StronglySorted R (map f l).
Proof.
  induction 1 as [|x l Hl IH Hx]; simpl; constructor; [exact IH|].
  apply Forall_map. exact Hx.
Qed.

(** C3.  Iterating [order_by(xs, k)] over a source with the finitely many
    items [s], for keys whose [<] is a strict weak order, yields a
    permutation of [s] whose keys are non-decreasing, and the items whose
    keys compare equal keep the order they have in [s]. *)
Theorem order_by_sorts_stably {A K} (ord : PyOrd K) (xs : pyobj A)
    (s : list A) (k : A -> K) :
  StrictWeakOrder ord ->
  xs |> to_list = Return s ->
  exists out,
    xs |> order_by k |> to_list = Return out /\
    Permutation s out /\
    StronglySorted (fun a b => py_lt b a = false) (map k out) /\
    forall c, filter (fun x => tie py_lt (k x) c) out
            = filter (fun x => tie py_lt (k x) c) s.
Proof.
  intros SWO Hs. exists (list_sort k s).
  destruct (list_sort_stable_sorted ord k s) as (P & S & F).
  split; [cbn in *; now rewrite Hs|]. split; [exact P|]. split; [|exact F].
  apply StronglySorted_map. exact S.
Qed.

Lemma order_by_sorts_stably_witness :
  exists out,
    Seq (range 10) |> order_by (fun x => x mod 2) |> to_list = Return out /\
    Permutation (range 10) out /\
    StronglySorted (fun a b => py_lt b a = false) (map (fun x => x mod 2) out) /\
    forall c, filter (fun x => tie py_lt (x mod 2) c) out
            = filter (fun x => tie py_lt (x mod 2) c) (range 10).
Proof.
  apply (order_by_sorts_stably PyOrd_int (Seq (range 10)) (range 10)
           (fun x => x mod 2)).
  - split; simpl.
    + intros a b Hab. apply Z.ltb_lt in Hab. apply Z.ltb_ge. lia.
    + intros a b c Hac. apply Z.ltb_lt in Hac.
      destruct (Z.ltb_spec a b); [now left|right]. apply Z.ltb_lt. lia.
  - reflexivity.
Defined.

(** ** [then_by] *)

Lemma stable_sorted_by_ext {A K} (lt1 lt2 : K -> K -> bool) (key : A -> K)
    s out :
  (forall a b, lt1 a b = lt2 a b) ->
  stable_sorted_by lt1 key s out -> stable_sorted_by lt2 key s out.
Proof.
  intros E (P & S & F). split; [exact P|]. split.
  - clear P F. induction S as [|x l Hl IH Hx]; constructor; [exact IH|].
    eapply Forall_impl; [|exact Hx]. cbn. intros y Hy. now rewrite <- E.
  - intros c.
    rewrite (filter_ext (fun x => tie lt2 (key x) c)
                        (fun x => tie lt1 (key x) c));
      [|intros x; unfold tie; now rewrite !E].
    rewrite F. apply filter_ext. intros x. unfold tie. now rewrite !E.
Qed.

(** A chain attached to [xs] is one [OrderedSequence] over [xs] itself,
    keyed by the composite key. *)
Lemma chain_ordered {A K} (ks : keys A K) (xs : pyobj A) :
  chain ks xs
  = Return (@OrderedSequence A K (composite_ord ks) xs (composite ks)).
Proof.
  induction ks as [K ord k|K1 K2 ks IH ord k]; [reflexivity|].
  cbn [chain]. rewrite IH. reflexivity.
Qed.

Lemma lawful_composite_ord {A K} (ks : keys A K) :
  lawful ks -> PyOrdLaws (composite_ord ks).
Proof.
  induction ks as [K ord k|K1 K2 ks IH ord k]; cbn; [auto|].
  intros [Hks Hord]. specialize (IH Hks).
  exact (@PyOrdLaws_tuple _ _ _ _ IH Hord).
Qed.

Lemma composite_lt_lexicographic {A K} (ks : keys A K) :
  lawful ks ->
  forall a b, @py_lt _ (composite_ord ks) a b = chain_lexicographic ks a b.
Proof.
  induction ks as [K ord k|K1 K2 ks IH ord k]; cbn [lawful]; [reflexivity|].
  intros [Hks Hord] a b.
  pose proof (lawful_composite_ord ks Hks) as L.
  cbn [composite_ord chain_lexicographic].
  rewrite (@tuple_lt_lexicographic _ _ _ _ L Hord).
  unfold lexicographic, tie. now rewrite !(IH Hks).
Qed.

(** C1.  A chain [order_by(k1) | then_by(k2) | ... | then_by(kn)] attached
    to a source [xs] with the finitely many items [s] is one
    [OrderedSequence] over [xs] itself whose key nests the composite key
    built so far as the first component of a pair.  Iterating it yields what
    ordering [xs] by the composite key directly yields: [s] stably sorted by
    the composite key under the lexicographic order. *)
Theorem then_by_composition {A K} (ks : keys A K) (xs : pyobj A) (s : list A) :
  xs |> to_list = Return s ->
  lawful ks ->
  chain ks xs
    = Return (@OrderedSequence A K (composite_ord ks) xs (composite ks)) /\
  exists out,
    chain ks xs |>> to_list = Return out /\
    xs |> @order_by A K (composite_ord ks) (composite ks) |> to_list
      = Return out /\
    stable_sorted_by (chain_lexicographic ks) (composite ks) s out.
Proof.
  intros Hs Hks. split; [apply chain_ordered|].
  exists (@list_sort A K (composite_ord ks) (composite ks) s).
  split; [|split].
  - rewrite chain_ordered. cbn in *. now rewrite Hs.
  - cbn in *. now rewrite Hs.
  - pose proof (lawful_composite_ord ks Hks) as L.
    apply stable_sorted_by_ext with (lt1 := @py_lt _ (composite_ord ks)).
    + now apply composite_lt_lexicographic.
    + apply list_sort_stable_sorted. apply L.
Qed.

(** The chain of the docstring: [order_by(x % 2) | then_by(-x)] over
    [range(10)]. *)
Lemma then_by_composition_witness :
  let ks := ThenBy (OrderBy (fun x : Z => x mod 2)) (fun x : Z => - x) in
  chain ks (Seq (range 10))
    = Return (@OrderedSequence _ _ (composite_ord ks) (Seq (range 10))
                (composite ks)) /\
  exists out,
    Seq (range 10) |> order_by (fun x => x mod 2) |> then_by (fun x => - x)
      |>> to_list = Return out /\
    Seq (range 10) |> order_by (fun x => (x mod 2, - x)) |> to_list
      = Return out /\
    stable_sorted_by (lexicographic Z.ltb Z.ltb)
      (fun x => (x mod 2, - x)) (range 10) out.
Proof.
  intros ks.
  exact (then_by_composition ks (Seq (range 10)) (range 10)
           eq_refl (conj PyOrdLaws_int PyOrdLaws_int)).
Defined.

(** C5.  Attaching [then_by] to a value that is not an [OrderedSequence]
    raises at the attachment itself: the result of [|] is the raised
    [ValueError], and nothing is iterated.  Attaching it to an
    [OrderedSequence] returns an [OrderedSequence]. *)
Theorem then_by_requires_ordered {A K2} (ord : PyOrd K2) (v : pyobj A)
    (k : A -> K2) :
  (is_OrderedSequence v = false ->
   v |> then_by k = Raise (ValueError "Sequence must be sorted with order_by"))
  /\
  (is_OrderedSequence v = true ->
   exists o, v |> then_by k = Return o /\ is_OrderedSequence o = true).
Proof.
  destruct v as [items|K ord1 xs k1|n]; cbn; split; intros E;
    try discriminate; try reflexivity.
  eexists. split; reflexivity.
Qed.

Lemma then_by_requires_ordered_witness :
  Seq (range 10) |> then_by (fun x => - x)
    = Raise (ValueError "Sequence must be sorted with order_by")
  /\
  exists o, Seq (range 10) |> order_by (fun x => x mod 2)
              |> then_by (fun x => - x) = Return o /\
            is_OrderedSequence o = true.
Proof.
  split.
  - apply (then_by_requires_ordered PyOrd_int (Seq (range 10))
             (fun x => - x)).
    reflexivity.
  - apply (then_by_requires_ordered PyOrd_int
             (Seq (range 10) |> order_by (fun x => x mod 2)) (fun x => - x)).
    reflexivity.
Defined.

(** ** [first_or_default] and [first] *)

Lemma first_match_unique {A} (p : A -> bool) s x y :
  first_match p s x -> first_match p s y -> x = y.
Proof.
  intros (pre1 & post1 & E1 & N1 & P1) (pre2 & post2 & E2 & N2 & P2).
  subst s. revert pre2 E2 N2.
  induction pre1 as [|a pre1 IH]; intros [|b pre2] E2 N2; cbn in E2.
  - congruence.
  - injection E2 as -> _. rewrite (N2 b) in P1 by now left. discriminate.
  - injection E2 as -> _. rewrite (N1 y) in P2 by now left. discriminate.
  - injection E2 as -> E2. apply IH with (pre2 := pre2); auto.
    + intros z Hz. apply N1. now right.
    + intros z Hz. apply N2. now right.
Qed.

Lemma first_or_default_cases {A} (s : list A) (D : A) (p : A -> bool) :
  ((forall x, In x s -> p x = false) /\ s |> first_or_default D p = D) \/
  (exists x, first_match p s x /\ s |> first_or_default D p = x).
Proof.
  induction s as [|a s IH]; cbn.
  - left. split; [intros x []|reflexivity].
  - destruct (p a) eqn:Pa.
    + right. exists a. split; [|reflexivity].
      exists [], s. split; [reflexivity|]. split; [intros y []|exact Pa].
    + destruct IH as [[N E]|(x & (pre & post & E & N & Px) & R)].
      * left. split; [|exact E]. intros x [<-|Hx]; auto.
      * right. exists x. split; [|exact R].
        exists (a :: pre), post. subst s. split; [reflexivity|].
        split; [|exact Px]. intros y [<-|Hy]; auto.
Qed.

Lemma first_match_satisfies {A} (p : A -> bool) s x :
  first_match p s x -> In x s /\ p x = true.
Proof.
  intros (pre & post & -> & _ & Px). split; [|exact Px].
  apply in_or_app. right. now left.
Qed.

Lemma is_refl o : is_ o o = true.
Proof. apply Nat.eqb_refl. Qed.

(** An object that exists is not the object allocated next. *)
Lemma is_fresh h o v :
  allocated h o -> is_ o {| id := h; value := v |} = false.
Proof. unfold allocated, is_. cbn. intros Ho. apply Nat.eqb_neq. lia. Qed.

(** C2, as stated, fails: [[zero] | first_or_default(zero)] returns its
    default although an item satisfies the predicate. *)
Lemma first_or_default_iff_counterexample :
  ~ ([zero] |> first_or_default zero always = zero <->
     forall x, In x [zero] -> always x = false).
Proof.
  intros [Hreturns _].
  specialize (Hreturns eq_refl zero (or_introl eq_refl)). discriminate.
Qed.

(** C2, amended.  [first_or_default(s, D)] returns [D] when no item of [s]
    satisfies the predicate, and the first item that satisfies it otherwise;
    so it returns [D] exactly when no item satisfies the predicate or the
    first one that does is [D] itself.  For a source of existing objects, strict
    [first] raises exactly when [first_or_default] with the fresh marker
    returns the marker, which is exactly when no item satisfies the
    predicate; otherwise it returns the first item that does, even one whose
    value equals the marker's. *)
Theorem first_presence_protocol (s : list object) (D : object)
    (p : object -> bool) (h : heap) :
  Forall (allocated h) s ->
  let marker := {| id := h; value := VList [] |} in
  ((forall x, In x s -> p x = false) -> s |> first_or_default D p = D) /\
  (forall x, first_match p s x -> s |> first_or_default D p = x) /\
  (s |> first_or_default D p = D
   <-> (forall x, In x s -> p x = false) \/ first_match p s D) /\
  (fst ((s |> first p) h) = Raise (ValueError "Sequence must contain some element")
   <-> is_ (s |> first_or_default marker p) marker = true) /\
  (is_ (s |> first_or_default marker p) marker = true
   <-> forall x, In x s -> p x = false) /\
  (forall x, first_match p s x -> fst ((s |> first p) h) = Return x).
Proof.
  intros Hs marker.
  assert (Hnone : forall d, (forall x, In x s -> p x = false) ->
                            s |> first_or_default d p = d).
  { intros d N. destruct (first_or_default_cases s d p)
      as [[_ E]|(x & M & _)]; [exact E|].
    apply first_match_satisfies in M as [Hin Px].
    rewrite (N x Hin) in Px. discriminate. }
  assert (Hsome : forall d x, first_match p s x ->
                              s |> first_or_default d p = x).
  { intros d x M. destruct (first_or_default_cases s d p)
      as [[N _]|(y & M' & E)].
    - apply first_match_satisfies in M as [Hin Px].
      rewrite (N x Hin) in Px. discriminate.
    - rewrite E. apply (first_match_unique p s y x M' M). }
  assert (Hfresh : forall x, first_match p s x -> is_ x marker = false).
  { intros x M. apply first_match_satisfies in M as [Hin _].
    apply is_fresh. rewrite Forall_forall in Hs. now apply Hs. }
  assert (Hstrict : fst ((s |> first p) h)
                    = if is_ (s |> first_or_default marker p) marker
                      then Raise (ValueError "Sequence must contain some element")
                      else Return (s |> first_or_default marker p)).
  { cbn. fold marker.
    destruct (is_ (first_or_default_original s marker p) marker);
      reflexivity. }
  split; [apply Hnone|]. split; [apply Hsome|]. split; [|split; [|split]].
  - split.
    + intros E. destruct (first_or_default_cases s D p)
        as [[N _]|(x & M & R)]; [now left|].
      right. rewrite R in E. now subst x.
    + intros [N|M]; [now apply Hnone|now apply Hsome].
  - rewrite Hstrict.
    destruct (is_ (s |> first_or_default marker p) marker);
      split; intros E; try reflexivity; discriminate.
  - split.
    + intros E. destruct (first_or_default_cases s marker p)
        as [[N _]|(x & M & R)]; [exact N|].
      rewrite R, (Hfresh x M) in E. discriminate.
    + intros N. rewrite (Hnone marker N). apply is_refl.
  - intros x M. rewrite Hstrict, (Hsome marker x M), (Hfresh x M).
    reflexivity.
Qed.

Lemma first_presence_protocol_witness :
  fst (([an_empty_list] |> first always) 2%nat) = Return an_empty_list.
Proof.
  apply (first_presence_protocol [an_empty_list] zero always 2%nat).
  - repeat constructor.
  - exists [], []. split; [reflexivity|]. split; [intros y []|reflexivity].
Defined.

(** ** [single_or_default] and [single] *)

Lemma where_original_filter {A} (s : list A) (p : A -> bool) :
  s |> where_ p = filter p s.
Proof.
  cbn. induction s as [|x s IH]; cbn; [reflexivity|].
  now destruct (p x); rewrite IH.
Qed.

(** The loop, started with the sentinel, over items none of which is the
    sentinel. *)
Lemma single_or_default_for_spec sentinel xs :
  Forall (fun o => is_ o sentinel = false) xs ->
  single_or_default_for sentinel sentinel xs
  = match xs with
    | [] => Return sentinel
    | [x] => Return x
    | _ :: _ :: _ => Raise only_one
    end.
Proof.
  intros Hxs. destruct xs as [|x [|y rest]]; cbn.
  - reflexivity.
  - now rewrite is_refl.
  - rewrite is_refl. inversion Hxs as [|? ? Hx _]; subst. now rewrite Hx.
Qed.

Lemma single_or_default_spec (s : list object) (D : object)
    (p : object -> bool) (h : heap) :
  Forall (allocated h) s ->
  (s |> single_or_default D p) h
  = (match filter p s with
     | [] => Return D
     | [x] => Return x
     | _ :: _ :: _ => Raise only_one
     end, S h).
Proof.
  intros Hs. cbn. unfold bind, lift, new_list.
  change (where_original s p) with (s |> where_ p).
  rewrite where_original_filter.
  set (sentinel := {| id := h; value := VList [] |}).
  assert (Hf : Forall (fun o => is_ o sentinel = false) (filter p s)).
  { apply Forall_forall. intros x Hx. apply filter_In in Hx as [Hx _].
    apply is_fresh. rewrite Forall_forall in Hs. now apply Hs. }
  rewrite (single_or_default_for_spec sentinel (filter p s) Hf).
  destruct (filter p s) as [|x [|y rest]]; cbn -[is_].
  - now rewrite is_refl.
  - inversion Hf as [|? ? Hx _]; subst. now rewrite Hx.
  - reflexivity.
Qed.

(** C4.  Over a source of existing objects, [single_or_default] returns the
    one item that satisfies the predicate when there is exactly one, the
    default when there is none, and raises when there are two or more;
    [single] raises when there is none and when there are two or more. *)
Theorem single_cardinality (s : list object) (D : object)
    (p : object -> bool) (h : heap) :
  Forall (allocated h) s ->
  (filter p s = [] -> fst ((s |> single_or_default D p) h) = Return D) /\
  (forall x, filter p s = [x] ->
             fst ((s |> single_or_default D p) h) = Return x) /\
  ((2 <= List.length (filter p s))%nat ->
   fst ((s |> single_or_default D p) h) = Raise only_one) /\
  (filter p s = [] -> fst ((s |> single p) h) = Raise only_one) /\
  (forall x, filter p s = [x] -> fst ((s |> single p) h) = Return x) /\
  ((2 <= List.length (filter p s))%nat -> fst ((s |> single p) h) = Raise only_one).
Proof.
  intros Hs.
  assert (Hs' : Forall (allocated (S h)) s).
  { eapply Forall_impl; [|exact Hs]. unfold allocated. intros; lia. }
  set (sentinel := {| id := h; value := VList [] |}).
  assert (Hstrict : (s |> single p) h
                    = match (s |> single_or_default sentinel p) (S h) with
                      | (Return result, h') =>
                          (if is_ result sentinel then raise only_one
                           else ret result) h'
                      | (Raise e, h') => (Raise e, h')
                      end).
  { reflexivity. }
  rewrite Hstrict, (single_or_default_spec s D p h Hs),
    (single_or_default_spec s sentinel p (S h) Hs').
  destruct (filter p s) as [|x [|y rest]] eqn:E; cbn [fst List.length].
  - rewrite is_refl. cbn.
    repeat split; try reflexivity; try discriminate; intros; lia.
  - assert (Hx : is_ x sentinel = false).
    { apply is_fresh. rewrite Forall_forall in Hs. apply Hs.
      apply (proj1 (filter_In p x s)). rewrite E. now left. }
    rewrite Hx. cbn.
    repeat split; try discriminate; try (intros; lia);
      intros z Hz; now injection Hz as ->.
  - repeat split; try reflexivity; discriminate.
Qed.

Lemma single_cardinality_witness :
  fst (([zero; an_empty_list; zero] |> single (fun o => is_ o zero)) 2%nat)
  = Raise only_one.
Proof.
  apply (single_cardinality [zero; an_empty_list; zero] zero
           (fun o => is_ o zero) 2%nat).
  - repeat constructor.
  - simpl. lia.
Defined.

(** ** Equality of keys, first occurrences, dictionaries *)

Section EqFacts.
Context {A : Type} `{PyEq A}.

Lemma eqb_eq (a b : A) : eqb a b = true <-> a = b.
Proof. destruct (eqb_spec a b); split; congruence. Qed.

Lemma eqb_neq (a b : A) : eqb a b = false <-> a <> b.
Proof. destruct (eqb_spec a b); split; congruence. Qed.

Lemma eqb_refl (a : A) : eqb a a = true.
Proof. now apply eqb_eq. Qed.

Lemma eqb_sym (a b : A) : eqb a b = eqb b a.
Proof.
  destruct (eqb_spec a b) as [->|N]; [now rewrite eqb_refl|].
  symmetry. apply eqb_neq. congruence.
Qed.

Lemma occurs_In (x : A) l : occurs x l = true <-> In x l.
Proof.
  unfold occurs. rewrite existsb_exists. split.
  - intros (y & Hy & E). apply eqb_eq in E. now subst.
  - intros Hx. exists x. split; [exact Hx|apply eqb_refl].
Qed.

Lemma occurs_not_In (x : A) l : occurs x l = false <-> ~ In x l.
Proof.
  rewrite <- occurs_In. destruct (occurs x l); split; congruence.
Qed.

Lemma first_occurrences_In (x : A) l :
  In x (first_occurrences l) <-> In x l.
Proof.
  induction l as [|a l IH]; cbn; [reflexivity|].
  rewrite filter_In, IH, negb_true_iff, eqb_neq.
  destruct (eqb_spec x a) as [->|N]; intuition congruence.
Qed.

Lemma occurs_first_occurrences (x : A) l :
  occurs x (first_occurrences l) = occurs x l.
Proof.
  apply Bool.eq_iff_eq_true. rewrite !occurs_In.
  apply first_occurrences_In.
Qed.

Lemma first_occurrences_NoDup l : NoDup (first_occurrences l).
Proof.
  induction l as [|a l IH]; cbn; constructor.
  - rewrite filter_In, negb_true_iff, eqb_neq. intros [_ N]. now apply N.
  - now apply NoDup_filter.
Qed.

Lemma first_occurrences_snoc l (x : A) :
  first_occurrences (l ++ [x])
  = if occurs x l then first_occurrences l else first_occurrences l ++ [x].
Proof.
  induction l as [|a l IH]; [reflexivity|].
  cbn [app first_occurrences]. rewrite IH.
  change (occurs x (a :: l)) with (eqb x a || occurs x l).
  destruct (occurs x l) eqn:O.
  - now rewrite orb_true_r.
  - rewrite orb_false_r, filter_app. cbn.
    destruct (eqb x a); cbn; [now rewrite app_nil_r|reflexivity].
Qed.
End EqFacts.

Section DictFacts.
Context {K V : Type} `{PyEq K}.

Lemma dict_contains_In (k : K) (d : dict K V) :
  dict_contains k d = true <-> In k (dict_keys d).
Proof.
  unfold dict_contains, dict_keys.
  induction d as [|[k' v] d IH]; cbn; [intuition discriminate|].
  destruct (eqb_spec k k') as [->|N]; [intuition|].
  rewrite IH. intuition congruence.
Qed.

Lemma dict_contains_not_In (k : K) (d : dict K V) :
  dict_contains k d = false <-> ~ In k (dict_keys d).
Proof.
  rewrite <- dict_contains_In.
  destruct (dict_contains k d); split; congruence.
Qed.

(** Setting a key that the dictionary does not have appends an entry. *)
Lemma dict_setitem_new (k : K) (v : V) (d : dict K V) :
  ~ In k (dict_keys d) -> dict_setitem k v d = d ++ [(k, v)].
Proof.
  unfold dict_keys. induction d as [|[k' v'] d IH]; cbn; [reflexivity|].
  intros N. destruct (eqb_spec k k') as [->|_]; [tauto|].
  rewrite IH; [reflexivity|tauto].
Qed.

(** Setting a key of a dictionary laid out as [f] over distinct keys
    changes the value at that key and nothing else. *)
Lemma dict_setitem_map (k : K) (w : V) (f : K -> V) (ks : list K) :
  NoDup ks -> In k ks ->
  dict_setitem k w (map (fun k' => (k', f k')) ks)
  = map (fun k' => (k', if eqb k' k then w else f k')) ks.
Proof.
  induction 1 as [|k' ks Hk' Hks IH]; cbn; [intros []|].
  intros Hin. rewrite (eqb_sym k' k).
  destruct (eqb_spec k k') as [->|N].
  - f_equal. apply map_ext_in. intros a Ha.
    destruct (eqb_spec a k') as [->|_]; [contradiction|reflexivity].
  - f_equal. apply IH. destruct Hin; congruence.
Qed.

Lemma dict_lookup_map (k : K) (f : K -> V) (ks : list K) :
  dict_lookup k (map (fun k' => (k', f k')) ks)
  = if occurs k ks then Some (f k) else None.
Proof.
  induction ks as [|k' ks IH]; cbn; [reflexivity|].
  destruct (eqb_spec k k') as [->|_]; [reflexivity|exact IH].
Qed.
End DictFacts.

(** ** [to_dict] *)

Section ToDictFacts.
Context {A K V : Type} `{PyEq K}.
Variable key_from_x : A -> K.
Variable value_from_x : A -> V.
Variable repr_k : K -> string.
Variable repr_x : A -> string.

Local Abbreviation entry := (entry_of key_from_x value_from_x).
Local Abbreviation loop :=
  (to_dict_for key_from_x value_from_x repr_k repr_x).
Local Abbreviation duplicate x :=
  (LookupError (duplicate_message repr_k repr_x (key_from_x x) x)).

Lemma dict_keys_entries l : dict_keys (map entry l) = map key_from_x l.
Proof. unfold dict_keys. rewrite map_map. reflexivity. Qed.

Lemma dict_keys_app (d1 d2 : dict K V) :
  dict_keys (d1 ++ d2) = dict_keys d1 ++ dict_keys d2.
Proof. apply map_app. Qed.

(** One turn of the loop. *)
Lemma to_dict_for_step a rest d0 c0 :
  loop (a :: rest) {| d := d0; calls := c0 |}
  = if dict_contains (key_from_x a) d0
    then (Raise (duplicate a),
          {| d := d0; calls := c0 ++ calls_for [a] |})
    else loop rest {| d := dict_setitem (key_from_x a) (value_from_x a) d0;
                      calls := c0 ++ calls_for [a] |}.
Proof.
  cbn. unfold bind. cbn. rewrite <- app_assoc. cbn.
  destruct (dict_contains (key_from_x a) d0); reflexivity.
Qed.

Lemma calls_for_app (l1 l2 : list A) :
  calls_for (l1 ++ l2) = calls_for l1 ++ calls_for l2.
Proof. apply flat_map_app. Qed.

(** The loop over items with new, distinct keys adds their entries. *)
Lemma to_dict_for_distinct xs : forall d0 c0,
  NoDup (map key_from_x xs) ->
  (forall x, In x xs -> ~ In (key_from_x x) (dict_keys d0)) ->
  loop xs {| d := d0; calls := c0 |}
  = (Return tt, {| d := d0 ++ map entry xs; calls := c0 ++ calls_for xs |}).
Proof.
  induction xs as [|a rest IH]; intros d0 c0 Hnd Hnew.
  - cbn. now rewrite !app_nil_r.
  - rewrite to_dict_for_step.
    assert (Ha : ~ In (key_from_x a) (dict_keys d0))
      by (apply Hnew; now left).
    rewrite (proj2 (dict_contains_not_In _ _) Ha).
    rewrite (dict_setitem_new _ _ _ Ha).
    cbn [map] in Hnd. inversion Hnd as [|? ? Hk Hnd']; subst.
    rewrite IH; [| exact Hnd' |].
    + change (a :: rest) with ([a] ++ rest).
      now rewrite map_app, calls_for_app, <- !app_assoc.
    + intros x Hx. rewrite dict_keys_app, in_app_iff. cbn.
      intros [Hin|[E|[]]]; [now apply (Hnew x); [right|] |].
      apply Hk. rewrite E. now apply in_map.
Qed.

(** The loop stops at the first item whose key the dictionary has. *)
Lemma to_dict_for_duplicate pre x post : forall d0 c0,
  NoDup (map key_from_x pre) ->
  (forall y, In y pre -> ~ In (key_from_x y) (dict_keys d0)) ->
  In (key_from_x x) (dict_keys d0 ++ map key_from_x pre) ->
  loop (pre ++ x :: post) {| d := d0; calls := c0 |}
  = (Raise (duplicate x),
     {| d := d0 ++ map entry pre; calls := c0 ++ calls_for (pre ++ [x]) |}).
Proof.
  induction pre as [|a pre IH]; intros d0 c0 Hnd Hnew Hdup.
  - cbn [app map] in *. rewrite app_nil_r in *.
    rewrite to_dict_for_step.
    now rewrite (proj2 (dict_contains_In _ _) Hdup).
  - cbn [app]. rewrite to_dict_for_step.
    assert (Ha : ~ In (key_from_x a) (dict_keys d0))
      by (apply Hnew; now left).
    rewrite (proj2 (dict_contains_not_In _ _) Ha).
    rewrite (dict_setitem_new _ _ _ Ha).
    cbn [map] in Hnd. inversion Hnd as [|? ? Hk Hnd']; subst.
    rewrite IH; [| exact Hnd' | |].
    + change (a :: pre ++ [x]) with ([a] ++ (pre ++ [x])).
      rewrite !calls_for_app, <- !app_assoc. reflexivity.
    + intros y Hy. rewrite dict_keys_app, in_app_iff. cbn.
      intros [Hin|[E|[]]]; [now apply (Hnew y); [right|] |].
      apply Hk. rewrite E. now apply in_map.
    + rewrite dict_keys_app. cbn. rewrite <- app_assoc. exact Hdup.
Qed.
End ToDictFacts.

(** C6.  [to_dict] scans the source in order.  When the keys of the items are
    distinct it returns their entries.  When an item [x] comes after items
    [pre] with distinct keys, one of which is the key of [x], it raises the
    [LookupError] for [x]: at that point the dictionary holds the entries of
    [pre] and nothing else, the key and value functions have been called for
    [pre] and [x], and no later item has been looked at. *)
Theorem to_dict_duplicate_key {A K V : Type} {E : PyEq K}
    (key_from_x : A -> K) (value_from_x : A -> V)
    (repr_k : K -> string) (repr_x : A -> string) (s : list A) :
  (NoDup (map key_from_x s) ->
   to_dict_original key_from_x value_from_x repr_k repr_x s
   = (Return (map (entry_of key_from_x value_from_x) s),
      {| d := map (entry_of key_from_x value_from_x) s;
         calls := calls_for s |})) /\
  (forall pre x post,
     s = pre ++ x :: post ->
     NoDup (map key_from_x pre) ->
     In (key_from_x x) (map key_from_x pre) ->
     to_dict_original key_from_x value_from_x repr_k repr_x s
     = (Raise (LookupError (duplicate_message repr_k repr_x (key_from_x x) x)),
        {| d := map (entry_of key_from_x value_from_x) pre;
           calls := calls_for (pre ++ [x]) |})).
Proof.
  unfold to_dict_original, start, bind. split.
  - intros Hnd.
    rewrite (to_dict_for_distinct key_from_x value_from_x repr_k repr_x s
               [] [] Hnd); [reflexivity|].
    intros x _ [].
  - intros pre x post -> Hnd Hdup.
    rewrite (to_dict_for_duplicate key_from_x value_from_x repr_k repr_x
               pre x post [] [] Hnd); [reflexivity| |exact Hdup].
    intros y _ [].
Qed.

(** The scenario of C6: grouping by length, the lengths 3, 5, 3 collide at
    ['csp']. *)
Lemma to_dict_duplicate_key_witness :
  to_dict_original len (fun x => x) format_d repr_str ["ada"; "basic"; "csp"]
  = (Raise (LookupError "Key 3 (for 'csp') is duplicate"),
     {| d := [(3, "ada"); (5, "basic")];
        calls := [key_from_x_called "ada"; value_from_x_called "ada";
                  key_from_x_called "basic"; value_from_x_called "basic";
                  key_from_x_called "csp"; value_from_x_called "csp"] |}).
Proof.
  apply (proj2 (to_dict_duplicate_key len (fun x => x) format_d repr_str
                  ["ada"; "basic"; "csp"]) ["ada"; "basic"] "csp" []).
  - reflexivity.
  - repeat constructor; simpl; intuition discriminate.
  - simpl. now left.
Defined.

(** ** [to_lookup] *)

Section ToLookupFacts.
Context {A K V : Type} `{PyEq K}.
Variable key_from_x : A -> K.
Variable value_from_x : A -> V.

Local Abbreviation values := (values_of key_from_x value_from_x).
Local Abbreviation group := (grouping key_from_x value_from_x).
Local Abbreviation loop := (to_lookup_for key_from_x value_from_x).

Lemma values_of_snoc k pre x :
  values k (pre ++ [x])
  = values k pre ++ (if eqb (key_from_x x) k then [value_from_x x] else []).
Proof.
  unfold values_of. rewrite filter_app, map_app. cbn.
  now destruct (eqb (key_from_x x) k).
Qed.

Lemma values_of_absent k pre :
  ~ In k (map key_from_x pre) -> values k pre = [].
Proof.
  unfold values_of. induction pre as [|a pre IH]; cbn; [reflexivity|].
  intros N. destruct (eqb_spec (key_from_x a) k) as [E|_]; [tauto|].
  apply IH. tauto.
Qed.

Lemma dict_keys_grouping s :
  dict_keys (group s) = first_occurrences (map key_from_x s).
Proof.
  unfold grouping, dict_keys. rewrite map_map. cbn. apply map_id.
Qed.

(** What one more item does to the lookup: its value goes to the end of
    the values of its key, and a key not seen before goes to the end of
    the keys. *)
Lemma grouping_snoc pre x :
  group (pre ++ [x])
  = match dict_lookup (key_from_x x) (group pre) with
    | Some vs => dict_setitem (key_from_x x) (vs ++ [value_from_x x])
                   (group pre)
    | None => dict_setitem (key_from_x x) [value_from_x x] (group pre)
    end.
Proof.
  unfold grouping at 1. rewrite map_app. cbn [map app].
  rewrite first_occurrences_snoc.
  unfold grouping at 1 2.
  rewrite dict_lookup_map.
  rewrite occurs_first_occurrences.
  destruct (occurs (key_from_x x) (map key_from_x pre)) eqn:O.
  - apply occurs_In in O.
    rewrite dict_setitem_map;
      [|apply first_occurrences_NoDup|now apply first_occurrences_In].
    apply map_ext. intros k. rewrite values_of_snoc.
    destruct (eqb_spec k (key_from_x x)) as [->|N].
    + now rewrite eqb_refl.
    + rewrite (proj2 (eqb_neq _ _)) by congruence. now rewrite app_nil_r.
  - apply occurs_not_In in O.
    fold (group pre).
    rewrite dict_setitem_new
      by (rewrite dict_keys_grouping, first_occurrences_In; exact O).
    unfold grouping. rewrite map_app. cbn [map].
    rewrite values_of_snoc, eqb_refl, (values_of_absent _ _ O). cbn [app].
    f_equal. apply map_ext_in. intros k Hk.
    rewrite first_occurrences_In in Hk.
    rewrite values_of_snoc.
    rewrite (proj2 (eqb_neq (key_from_x x) k))
      by (intros E; apply O; now rewrite E).
    now rewrite app_nil_r.
Qed.

(** One turn of the loop never raises: the list at [k] is read only when
    [k] is a key. *)
Lemma to_lookup_for_step a rest d0 c0 :
  loop (a :: rest) {| d := d0; calls := c0 |}
  = loop rest
      {| d := match dict_lookup (key_from_x a) d0 with
              | Some vs => dict_setitem (key_from_x a)
                             (vs ++ [value_from_x a]) d0
              | None => dict_setitem (key_from_x a) [value_from_x a] d0
              end;
         calls := c0 ++ calls_for [a] |}.
Proof.
  cbn. unfold bind. cbn. rewrite <- app_assoc. cbn.
  unfold dict_contains, d_getitem, dict_getitem. cbn.
  destruct (dict_lookup (key_from_x a) d0) eqn:L; cbn; rewrite ?L;
    reflexivity.
Qed.

Lemma to_lookup_for_spec xs : forall pre,
  loop xs {| d := group pre; calls := calls_for pre |}
  = (Return tt,
     {| d := group (pre ++ xs); calls := calls_for (pre ++ xs) |}).
Proof.
  induction xs as [|a rest IH]; intros pre.
  - cbn. now rewrite app_nil_r.
  - rewrite to_lookup_for_step, <- grouping_snoc.
    rewrite <- (calls_for_app pre [a]).
    rewrite IH, <- app_assoc. reflexivity.
Qed.
End ToLookupFacts.

(** C7.  [to_lookup] never raises.  It returns the lookup of the source: the
    keys in the order in which they are first seen, each with the values of
    its items in the order of the source; [key_from_x] and [value_from_x]
    have been called once for every item, in source order.  Grouping
    ['ada', 'awk', 'bash', 'bcpl', 'c'] by first character gives
    ['ada', 'awk'] at ['a'], ['bash', 'bcpl'] at ['b'] and ['c'] at ['c']. *)
Theorem to_lookup_groups :
  (forall (A K V : Type) (E : PyEq K) (key_from_x : A -> K)
          (value_from_x : A -> V) (s : list A),
     to_lookup_original key_from_x value_from_x s
     = (Return (grouping key_from_x value_from_x s),
        {| d := grouping key_from_x value_from_x s; calls := calls_for s |}) /\
     dict_keys (grouping key_from_x value_from_x s)
     = first_occurrences (map key_from_x s) /\
     forall k, dict_lookup k (grouping key_from_x value_from_x s)
               = if occurs k (map key_from_x s)
                 then Some (map value_from_x
                              (filter (fun x => eqb (key_from_x x) k) s))
                 else None) /\
  fst (to_lookup_original first_character (fun x => x)
         ["ada"; "awk"; "bash"; "bcpl"; "c"])
  = Return [("a", ["ada"; "awk"]); ("b", ["bash"; "bcpl"]); ("c", ["c"])].
Proof.
  split; [|reflexivity].
  intros A K V E key_from_x value_from_x s. split; [|split].
  - unfold to_lookup_original, start, bind.
    change (@nil (K * list V)) with (grouping key_from_x value_from_x []).
    change (@nil (call A)) with (@calls_for A []).
    rewrite to_lookup_for_spec. reflexivity.
  - apply dict_keys_grouping.
  - intros k. unfold grouping. rewrite dict_lookup_map.
    rewrite occurs_first_occurrences.
    reflexivity.
Qed.

(** ** [distinct] *)

Section DistinctFacts.
Context {A : Type} `{PyEq A}.

Lemma dict_get_setitem (y x : A) (table : dict A bool) :
  dict_get y false (dict_setitem x true table)
  = eqb y x || dict_get y false table.
Proof.
  unfold dict_get. induction table as [|[k v] table IH]; cbn.
  - now destruct (eqb y x).
  - destruct (eqb_spec x k) as [->|N]; cbn.
    + now destruct (eqb y k).
    + destruct (eqb_spec y k) as [->|_]; [|exact IH].
      now rewrite (proj2 (eqb_neq k x)) by congruence.
Qed.

Lemma filter_twice (f g : A -> bool) l :
  filter f (filter g l) = filter (fun y => g y && f y) l.
Proof.
  induction l as [|a l IH]; cbn; [reflexivity|].
  destruct (g a); cbn; [destruct (f a)|]; now rewrite IH.
Qed.

(** With a table that records the items [seen], the loop yields the first
    occurrences of the items that are not among them. *)
Lemma distinct_for_spec xs : forall table seen,
  (forall y, dict_get y false table = occurs y seen) ->
  distinct_for table xs
  = filter (fun y => negb (occurs y seen)) (first_occurrences xs).
Proof.
  induction xs as [|x rest IH]; intros table seen Htable; [reflexivity|].
  cbn [distinct_for first_occurrences filter]. rewrite Htable, filter_twice.
  destruct (occurs x seen) eqn:O; cbn [negb].
  - rewrite (IH table seen Htable). apply filter_ext_in. intros y _.
    destruct (eqb_spec y x) as [->|_]; [now rewrite O|reflexivity].
  - f_equal. rewrite (IH _ (x :: seen)).
    + apply filter_ext. intros y. cbn. now rewrite negb_orb.
    + intros y. rewrite dict_get_setitem, Htable. reflexivity.
Qed.
End DistinctFacts.

(** C9.  [distinct] yields the first occurrence of every value of the
    source, in the order of the source: the result has no repeated item, has
    the items of the source, and an item appended to the source is appended
    to the result exactly when it has not occurred before. *)
Theorem distinct_first_occurrences {A : Type} {E : PyEq A} (s : list A) :
  s |> distinct = first_occurrences s /\
  NoDup (s |> distinct) /\
  (forall x, In x (s |> distinct) <-> In x s) /\
  (forall x, (s ++ [x]) |> distinct
             = if occurs x s then s |> distinct else (s |> distinct) ++ [x]).
Proof.
  assert (D : forall l : list A, l |> distinct = first_occurrences l).
  { intros l. cbn. unfold distinct_original.
    rewrite (distinct_for_spec l [] []) by reflexivity.
    cbn. induction (first_occurrences l) as [|a r IH]; cbn; congruence. }
  rewrite !D. split; [reflexivity|].
  split; [apply first_occurrences_NoDup|].
  split; [intros x; apply first_occurrences_In|].
  intros x. rewrite D. apply first_occurrences_snoc.
Qed.

(** ** Generators: [repeat], [take], [element_at] *)

Lemma collect_step {A} (xs : Lazy.generator A) fuel pos :
  Lazy.collect xs (S fuel) pos
  = match Lazy.next xs pos with
    | None => Some []
    | Some (x, pos') => option_map (cons x) (Lazy.collect xs fuel pos')
    end.
Proof. reflexivity. Qed.

Lemma take_repeat_next {A} (x : A) (n i : Z) :
  Lazy.next (Lazy.take_original (Lazy.repeat x None) n) (tt, i)
  = if i <? n then Some (x, (tt, i + 1)) else None.
Proof. reflexivity. Qed.

Lemma collect_take_repeat {A} (x : A) (m : nat) : forall (i : Z) (extra : nat),
  Lazy.collect (Lazy.take_original (Lazy.repeat x None) (i + Z.of_nat m))
    (S m + extra) (tt, i)
  = Some (repeat x m).
Proof.
  induction m as [|m IH]; intros i extra;
    change (S ?k + extra)%nat with (S (k + extra));
    rewrite collect_step, take_repeat_next.
  - now rewrite Z.add_0_r, Z.ltb_irrefl.
  - replace (i <? i + Z.of_nat (S m)) with true
      by (symmetry; apply Z.ltb_lt; lia).
    replace (i + Z.of_nat (S m)) with ((i + 1) + Z.of_nat m) by lia.
    change (S (m + extra)) with (S m + extra)%nat.
    now rewrite (IH (i + 1) extra).
Qed.

(** Without [take] the loop of [tuple] is still running whatever fuel it is
    given. *)
Lemma collect_repeat_unbounded {A} (x : A) (fuel : nat) :
  Lazy.collect (Lazy.repeat x None) fuel tt = None.
Proof.
  induction fuel as [|fuel IH]; [reflexivity|].
  cbn [Lazy.collect Lazy.repeat Lazy.next]. cbn in IH. now rewrite IH.
Qed.

(** C8.  [repeat(x) | take(n) | to_tuple()] returns the [n] copies of [x],
    once the loop of [tuple] may resume the generator [n + 1] times or more;
    [to_list] likewise.  Attached to [repeat(x)] itself, [to_tuple] never
    returns. *)
Theorem repeat_take_terminates {A : Type} (x : A) (n extra : nat) :
  Lazy.repeat x None |> Lazy.take (Z.of_nat n) |> Lazy.to_tuple (S n + extra)
    = Some (repeat x n) /\
  Lazy.repeat x None |> Lazy.take (Z.of_nat n) |> Lazy.to_list (S n + extra)
    = Some (repeat x n) /\
  forall fuel, Lazy.repeat x None |> Lazy.to_tuple fuel = None.
Proof.
  split; [|split].
  - exact (collect_take_repeat x n 0 extra).
  - exact (collect_take_repeat x n 0 extra).
  - intros fuel. exact (collect_repeat_unbounded x fuel).
Qed.

(** With a negative index the counter, which starts at [0] and grows, never
    meets the index: the loop runs to the end of a finite source. *)
Lemma element_at_or_default_for_negative {A} (s pos : list A) (d : A)
    (index : Z) :
  index < 0 ->
  forall (i : Z) (fuel : nat),
    0 <= i -> (List.length pos < fuel)%nat ->
    Lazy.element_at_or_default_for (Lazy.iter s) fuel pos i index d = Some d.
Proof.
  intros Hneg. induction pos as [|x pos IH]; intros i fuel Hi Hfuel;
    (destruct fuel as [|fuel]; [cbn in Hfuel; lia|]); cbn.
  - reflexivity.
  - replace (i =? index) with false by (symmetry; apply Z.eqb_neq; lia).
    apply IH; [lia|cbn in Hfuel; lia].
Qed.

(** On [repeat(x)] the loop is still running whatever fuel it is given. *)
Lemma element_at_or_default_for_unbounded {A} (x d : A) (index : Z) :
  index < 0 ->
  forall (fuel : nat) (i : Z),
    0 <= i ->
    Lazy.element_at_or_default_for (Lazy.repeat x None) fuel tt i index d
    = None.
Proof.
  intros Hneg. induction fuel as [|fuel IH]; intros i Hi; [reflexivity|].
  cbn. replace (i =? index) with false by (symmetry; apply Z.eqb_neq; lia).
  apply IH. lia.
Qed.

(** C10, as stated, fails on a source that does not end:
    [repeat(1) | element_at_or_default(-1, 0)] never returns. *)
Lemma element_at_or_default_counterexample :
  ~ exists fuel,
      Lazy.repeat 1 None |> Lazy.element_at_or_default fuel (-1) 0 = Some 0.
Proof.
  intros [fuel E]. cbn in E. unfold Lazy.element_at_or_default_original in E.
  cbn [Lazy.entry Lazy.repeat] in E.
  rewrite (element_at_or_default_for_unbounded 1 0 (-1)) in E by lia.
  discriminate.
Qed.

(** C10, amended.  For every finite source and every negative index,
    [element_at_or_default] returns the default and [element_at] raises the
    [IndexError] for that index, once their loop may resume the source more
    often than it has items. *)
Theorem element_at_negative_index {A : Type} (s : list A) (d : A)
    (objects : list object) (h : heap) (index : Z) (fuel : nat) :
  index < 0 ->
  ((List.length s < fuel)%nat ->
   Lazy.iter s |> Lazy.element_at_or_default fuel index d = Some d) /\
  ((List.length objects < fuel)%nat ->
   fst ((Lazy.iter objects |> Lazy.element_at fuel index) h)
   = Raise (IndexError ("Index " ++ format_d index ++ " is out of range")%string)).
Proof.
  intros Hneg. split; intros Hfuel.
  - apply element_at_or_default_for_negative; [exact Hneg|lia|exact Hfuel].
  - cbn -[is_ format_d String.append]. unfold bind, new_list.
    unfold Lazy.element_at_or_default_original.
    cbn [Lazy.entry Lazy.iter].
    rewrite element_at_or_default_for_negative by (auto; lia).
    now rewrite is_refl.
Qed.

Lemma element_at_negative_index_witness :
  Lazy.iter [0; 1; 2; 3] |> Lazy.element_at_or_default 5 (-1) 7 = Some 7 /\
  fst ((Lazy.iter [zero; an_empty_list] |> Lazy.element_at 5 (-1)) 2%nat)
  = Raise (IndexError "Index -1 is out of range").
Proof.
  split.
  - apply (element_at_negative_index [0; 1; 2; 3] 7 [zero; an_empty_list]
             2%nat (-1) 5); [lia|simpl; lia].
  - apply (element_at_negative_index [0; 1; 2; 3] 7 [zero; an_empty_list]
             2%nat (-1) 5); [lia|simpl; lia].
Defined.

(* ================================================================== *)
(** * Part IV. Further properties of the operators *)
(* ================================================================== *)

(** ** [all], [any], [contains], [except_from] *)







(** ** [count], [sum], [average], [max], [min] *)





Lemma concat_original_app {A} (xs ys : list A) : xs |> concat ys = xs ++ ys.
Proof. cbn. induction xs as [|x xs IH]; cbn; congruence. Qed.











(** ** [last_or_default], [last], [default_if_empty] *)

Lemma first_or_default_snoc {A} (l : list A) (x d : A) (p : A -> bool) :
  (l ++ [x]) |> first_or_default d p
  = l |> first_or_default (if p x then x else d) p.
Proof.
  cbn. induction l as [|a l IH]; cbn; [reflexivity|].
  now destruct (p a).
Qed.

Lemma last_or_default_for_reverse (xs : list object) (v : object)
    (p : object -> bool) :
  last_or_default_for v xs p = xs |> reverse |> first_or_default v p.
Proof.
  revert v. induction xs as [|x xs IH]; intros v; [reflexivity|].
  cbn [last_or_default_for].
  change ((x :: xs) |> reverse) with (rev xs ++ [x]).
  rewrite first_or_default_snoc.
  destruct (p x); apply IH.
Qed.

Lemma last_or_default_spec (s : list object) (D : object)
    (p : object -> bool) (h : heap) :
  Forall (allocated h) s ->
  (s |> last_or_default D p) h
  = (Return (s |> reverse |> first_or_default D p), S h).
Proof.
  intros Hs.
  set (sentinel := {| id := h; value := VList [] |}).
  assert (E : (s |> last_or_default D p) h
              = (if is_ (last_or_default_for sentinel s p) sentinel
                 then ret D else ret (last_or_default_for sentinel s p)) (S h))
    by reflexivity.
  rewrite E, last_or_default_for_reverse.
  destruct (first_or_default_cases (s |> reverse) sentinel p)
    as [[N R]|(x & M & R)]; rewrite R.
  - rewrite is_refl.
    destruct (first_or_default_cases (s |> reverse) D p)
      as [[_ R']|(x & M & _)]; [now rewrite R'|].
    apply first_match_satisfies in M as [Hin Px].
    rewrite (N x Hin) in Px. discriminate.
  - pose proof (first_match_satisfies _ _ _ M) as [Hin _].
    assert (Hx : is_ x sentinel = false)
      by (apply is_fresh; rewrite Forall_forall in Hs; apply Hs;
          now apply in_rev).
    rewrite Hx.
    destruct (first_or_default_cases (s |> reverse) D p)
      as [[N _]|(y & M' & R')].
    + apply first_match_satisfies in M as [_ Px].
      rewrite (N x Hin) in Px. discriminate.
    + now rewrite R', (first_match_unique p _ y x M' M).
Qed.

(** Over a source of existing objects, [last_or_default] returns what
    [first_or_default] returns on the reversed source, and [last] returns or
    raises as [first] does on the reversed source. *)
Theorem last_is_first_of_reverse (s : list object) (D : object)
    (p : object -> bool) (h : heap) :
  Forall (allocated h) s ->
  fst ((s |> last_or_default D p) h)
    = Return (s |> reverse |> first_or_default D p) /\
  fst ((s |> last p) h) = fst ((s |> reverse |> first p) h) /\
  (fst ((s |> last p) h) = Raise (ValueError "Sequence must contain some element")
   <-> forall x, In x s -> p x = false).
Proof.
  intros Hs. split; [now rewrite last_or_default_spec|].
  assert (Hs' : Forall (allocated (S h)) s).
  { eapply Forall_impl; [|exact Hs]. unfold allocated. intros; lia. }
  set (sentinel := {| id := h; value := VList [] |}).
  assert (L : (s |> last p) h
              = match (s |> last_or_default sentinel p) (S h) with
                | (Return result, h') =>
                    (if is_ result sentinel
                     then raise (ValueError "Sequence must contain some element")
                     else ret result) h'
                | (Raise e, h') => (Raise e, h')
                end) by reflexivity.
  assert (F : (s |> reverse |> first p) h
              = (if is_ (s |> reverse |> first_or_default sentinel p) sentinel
                 then raise (ValueError "Sequence must contain some element")
                 else ret (s |> reverse |> first_or_default sentinel p)) (S h))
    by reflexivity.
  rewrite L, F, (last_or_default_spec s sentinel p (S h) Hs').
  split;
    [now destruct (is_ (s |> reverse |> first_or_default sentinel p) sentinel)|].
  destruct (first_or_default_cases (s |> reverse) sentinel p)
    as [[N R]|(x & M & R)]; rewrite R.
  - rewrite is_refl. split; [|reflexivity].
    intros _ x Hx. apply N. now apply (proj1 (in_rev s x)).
  - pose proof (first_match_satisfies _ _ _ M) as [Hin Px].
    apply (proj2 (in_rev s x)) in Hin.
    assert (Hx : is_ x sentinel = false)
      by (apply is_fresh; rewrite Forall_forall in Hs; now apply Hs).
    rewrite Hx. split; [discriminate|].
    intros N. rewrite (N x Hin) in Px. discriminate.
Qed.

Lemma last_is_first_of_reverse_witness :
  fst (([zero; an_empty_list] |> last_or_default zero always) 2%nat)
    = Return an_empty_list /\
  fst (([zero; an_empty_list] |> last always) 2%nat) = Return an_empty_list.
Proof.
  split;
    apply (last_is_first_of_reverse [zero; an_empty_list] zero always 2%nat);
    repeat constructor.
Defined.

Lemma default_if_empty_for_true {A} (xs : list A) (d : A) :
  default_if_empty_for true xs d = xs.
Proof. induction xs as [|x xs IH]; cbn; congruence. Qed.

Lemma default_if_empty_spec {A} (xs : list A) (d : A) :
  xs |> default_if_empty d = match xs with [] => [d] | _ :: _ => xs end.
Proof.
  destruct xs as [|x xs]; [reflexivity|].
  cbn. now rewrite default_if_empty_for_true.
Qed.

(** [default_if_empty] never yields an empty sequence and leaves a source
    with items as it is.  So, over existing objects, [first()] after
    [default_if_empty(d)] never raises: it returns what
    [first_or_default(d)] returns. *)
Theorem default_if_empty_then_first (s : list object) (d : object) (h : heap) :
  Forall (allocated h) s -> allocated h d ->
  s |> default_if_empty d <> [] /\
  (s <> [] -> s |> default_if_empty d = s) /\
  fst ((s |> default_if_empty d |> first always) h)
    = Return (s |> first_or_default d always).
Proof.
  intros Hs Hd. rewrite default_if_empty_spec.
  destruct s as [|x s]; (split; [discriminate|]); (split; [easy|]).
  - cbn -[is_]. now rewrite (is_fresh h d (VList []) Hd).
  - inversion Hs as [|? ? Hx _]; subst.
    cbn -[is_]. now rewrite (is_fresh h x (VList []) Hx).
Qed.

Lemma default_if_empty_then_first_witness :
  fst ((@empty object |> default_if_empty zero |> first always) 1%nat)
  = Return zero.
Proof.
  apply (default_if_empty_then_first empty zero 1%nat).
  - constructor.
  - unfold allocated. simpl. lia.
Defined.

(** ** [take], [skip], [take_while], [skip_while] and the indexed variants *)




Lemma skip_while_for_false {A} (xs : list A) (p : A -> bool) :
  skip_while_for false xs p = xs.
Proof. induction xs as [|x xs IH]; cbn; congruence. Qed.

(** [take_while] yields the longest prefix whose items all satisfy the
    predicate and [skip_while] yields the rest, whatever comes later in
    it. *)
Theorem take_while_skip_while_partition {A : Type} (s : list A)
    (p : A -> bool) :
  (s |> take_while p) ++ (s |> skip_while p) = s /\
  s |> take_while p |> all p = true /\
  s |> skip_while p |> take_while p = [] /\
  s |> take_while p |> skip_while p = [].
Proof.
  cbn. unfold skip_while_original.
  induction s as [|x s (IH1 & IH2 & IH3 & IH4)]; [now cbn|].
  cbn [take_while_original skip_while_for andb].
  destruct (p x) eqn:Px; cbn [app take_while_original all_original
                               skip_while_for andb negb].
  - rewrite Px. cbn [negb andb]. repeat split; congruence.
  - rewrite Px, skip_while_for_false. now repeat split.
Qed.

Lemma where_with_index_for_plain {A} (p : A -> bool) (xs : list A) : forall i,
  where_with_index_for i xs (fun x _ => p x) = xs |> where_ p.
Proof. cbn. induction xs as [|x xs IH]; intros i; cbn; now rewrite ?IH. Qed.

Lemma select_with_index_for_plain {A B} (f : A -> B) (xs : list A) : forall i,
  select_with_index_for i xs (fun x _ => f x) = xs |> select f.
Proof. cbn. induction xs as [|x xs IH]; intros i; cbn; now rewrite ?IH. Qed.

Lemma take_while_with_index_for_plain {A} (p : A -> bool) (xs : list A) :
  forall i, take_while_with_index_for i xs (fun x _ => p x) = xs |> take_while p.
Proof. cbn. induction xs as [|x xs IH]; intros i; cbn; now rewrite ?IH. Qed.

Lemma skip_while_with_index_for_plain {A} (p : A -> bool) (xs : list A) :
  forall skipping i,
    skip_while_with_index_for skipping i xs (fun x _ => p x)
    = skip_while_for skipping xs p.
Proof.
  induction xs as [|x xs IH]; intros skipping i; cbn; now rewrite ?IH.
Qed.

Lemma take_while_with_index_for_bound {A} (n : Z) (xs : list A) : forall i,
  take_while_with_index_for i xs (fun _ j => j <? n) = take_for i xs n.
Proof. induction xs as [|x xs IH]; intros i; cbn; now rewrite ?IH. Qed.

Lemma skip_while_with_index_for_false {A} (q : A -> Z -> bool) (xs : list A) :
  forall i, skip_while_with_index_for false i xs q = xs.
Proof. induction xs as [|x xs IH]; intros i; cbn; now rewrite ?IH. Qed.

Lemma skip_for_all {A} (n : Z) (xs : list A) : forall i,
  n <= i -> skip_for i xs n = xs.
Proof.
  induction xs as [|x xs IH]; intros i Hi; cbn; [reflexivity|].
  destruct (Z.leb_spec n i); [|lia]. rewrite IH; [reflexivity|lia].
Qed.

Lemma skip_while_with_index_for_bound {A} (n : Z) (xs : list A) : forall i,
  skip_while_with_index_for true i xs (fun _ j => j <? n) = skip_for i xs n.
Proof.
  induction xs as [|x xs IH]; intros i; cbn; [reflexivity|].
  destruct (Z.ltb_spec i n), (Z.leb_spec n i); try lia.
  - apply IH.
  - rewrite skip_while_with_index_for_false, skip_for_all; [reflexivity|lia].
Qed.

(** The indexed operators pass the position of the item, counted from [0].
    With a function that ignores the position they are the plain
    operators, and [take(n)] and [skip(n)] are [take_while_with_index] and
    [skip_while_with_index] on the test [i < n]. *)
Theorem indexed_variants_generalise {A B : Type} (s : list A) (p : A -> bool)
    (f : A -> B) (n : Z) :
  s |> where_with_index (fun x _ => p x) = s |> where_ p /\
  s |> select_with_index (fun x _ => f x) = s |> select f /\
  s |> take_while_with_index (fun x _ => p x) = s |> take_while p /\
  s |> skip_while_with_index (fun x _ => p x) = s |> skip_while p /\
  s |> take_while_with_index (fun _ i => i <? n) = s |> take n /\
  s |> skip_while_with_index (fun _ i => i <? n) = s |> skip n.
Proof.
  split; [apply where_with_index_for_plain|].
  split; [apply select_with_index_for_plain|].
  split; [apply take_while_with_index_for_plain|].
  split; [apply skip_while_with_index_for_plain|].
  split; [apply take_while_with_index_for_bound|].
  apply skip_while_with_index_for_bound.
Qed.

Lemma select_with_index_for_positions {A B} (f : A -> Z -> B) (xs : list A) :
  forall k,
    select_with_index_for (Z.of_nat k) xs f
    = map (fun xi => f (fst xi) (snd xi)) (combine xs (positions_from k xs)).
Proof.
  unfold positions_from.
  induction xs as [|x xs IH]; intros k; [reflexivity|].
  cbn. f_equal. rewrite <- IH. f_equal. lia.
Qed.

Lemma where_with_index_for_positions {A} (q : A -> Z -> bool) (xs : list A) :
  forall k,
    where_with_index_for (Z.of_nat k) xs q
    = map fst (filter (fun xi => q (fst xi) (snd xi))
                 (combine xs (positions_from k xs))).
Proof.
  unfold positions_from.
  induction xs as [|x xs IH]; intros k; [reflexivity|].
  cbn. replace (Z.of_nat k + 1) with (Z.of_nat (S k)) by lia.
  rewrite IH. now destruct (q x (Z.of_nat k)).
Qed.

Lemma select_many_with_index_for_positions {A B} (f : A -> Z -> list B)
    (xs : list A) :
  forall k,
    select_many_with_index_for (Z.of_nat k) xs f
    = flat_map (fun xi => f (fst xi) (snd xi))
        (combine xs (positions_from k xs)).
Proof.
  unfold positions_from.
  induction xs as [|x xs IH]; intros k; [reflexivity|].
  cbn. replace (Z.of_nat k + 1) with (Z.of_nat (S k)) by lia.
  now rewrite IH.
Qed.

(** The indexed operators work on the items paired with their positions
    [0, 1, 2, ...]: [select_with_index] maps the pairs, [where_with_index]
    filters them and [select_many_with_index] flattens what the function
    makes of them. *)
Theorem indexed_operators_use_positions {A B : Type} (s : list A)
    (f : A -> Z -> B) (q : A -> Z -> bool) (g : A -> Z -> list B) :
  s |> select_with_index f
    = map (fun xi => f (fst xi) (snd xi))
        (combine s (range (List.length s))) /\
  s |> where_with_index q
    = map fst (filter (fun xi => q (fst xi) (snd xi))
                 (combine s (range (List.length s)))) /\
  s |> select_many_with_index g
    = flat_map (fun xi => g (fst xi) (snd xi))
        (combine s (range (List.length s))).
Proof.
  split; [|split].
  - exact (select_with_index_for_positions f s 0).
  - exact (where_with_index_for_positions q s 0).
  - exact (select_many_with_index_for_positions g s 0).
Qed.



(** ** [distinct] again *)


Lemma filter_all {A} (f : A -> bool) (l : list A) :
  (forall x, In x l -> f x = true) -> filter f l = l.
Proof.
  induction l as [|a l IH]; intros Hf; cbn; [reflexivity|].
  rewrite (Hf a) by now left. f_equal. apply IH. intros x Hx.
  apply Hf. now right.
Qed.





(** ** [element_at] within and beyond the bounds *)

Lemma element_at_or_default_for_nth {A} (s pos : list A) (d : A) :
  forall (i index : Z) (fuel : nat),
    i <= index -> (List.length pos < fuel)%nat ->
    Lazy.element_at_or_default_for (Lazy.iter s) fuel pos i index d
    = Some (nth (Z.to_nat (index - i)) pos d).
Proof.
  induction pos as [|x pos IH]; intros i index fuel Hi Hfuel;
    (destruct fuel as [|fuel]; [cbn in Hfuel; lia|]); cbn.
  - now destruct (Z.to_nat (index - i)).
  - destruct (Z.eqb_spec i index) as [->|N].
    + now rewrite Z.sub_diag.
    + rewrite IH by (cbn in Hfuel; lia).
      replace (Z.to_nat (index - i)) with (S (Z.to_nat (index - (i + 1))))
        by lia.
      reflexivity.
Qed.

(** For an index that is not negative, [element_at_or_default] returns the
    item at that position, counted from [0], and the default beyond the
    end; over existing objects [element_at] returns the item within the
    bounds and raises the [IndexError] for the index beyond them. *)
Theorem element_at_position {A : Type} (s : list A) (d : A)
    (objects : list object) (h : heap) (index : Z) (fuel : nat) :
  0 <= index ->
  Forall (allocated h) objects ->
  ((List.length s < fuel)%nat ->
   Lazy.iter s |> Lazy.element_at_or_default fuel index d
   = Some (nth (Z.to_nat index) s d)) /\
  ((List.length objects < fuel)%nat ->
   fst ((Lazy.iter objects |> Lazy.element_at fuel index) h)
   = match nth_error objects (Z.to_nat index) with
     | Some x => Return (Some x)
     | None =>
         Raise (IndexError ("Index " ++ format_d index ++ " is out of range")%string)
     end).
Proof.
  intros Hindex Hobjects. split; intros Hfuel.
  - cbn. unfold Lazy.element_at_or_default_original. cbn [Lazy.entry Lazy.iter].
    rewrite element_at_or_default_for_nth by (auto; lia).
    now rewrite Z.sub_0_r.
  - set (sentinel := {| id := h; value := VList [] |}).
    assert (E : (Lazy.iter objects |> Lazy.element_at fuel index) h
                = match Lazy.element_at_or_default_for (Lazy.iter objects) fuel
                          objects 0 index sentinel with
                  | None => ret None
                  | Some result =>
                      if is_ result sentinel
                      then raise (IndexError
                             ("Index " ++ format_d index ++ " is out of range")%string)
                      else ret (Some result)
                  end (S h)) by reflexivity.
    rewrite E, element_at_or_default_for_nth by (auto; lia).
    rewrite Z.sub_0_r.
    destruct (nth_error objects (Z.to_nat index)) as [x|] eqn:N.
    + rewrite (nth_error_nth _ _ _ N).
      assert (Hx : is_ x sentinel = false).
      { apply is_fresh. rewrite Forall_forall in Hobjects.
        apply Hobjects. eapply nth_error_In, N. }
      now rewrite Hx.
    + rewrite nth_overflow by (now apply nth_error_None).
      now rewrite is_refl.
Qed.

Lemma element_at_position_witness :
  Lazy.iter [0; 1; 2; 3] |> Lazy.element_at_or_default 5 2 7 = Some 2 /\
  fst ((Lazy.iter [zero; an_empty_list] |> Lazy.element_at 5 4) 2%nat)
  = Raise (IndexError "Index 4 is out of range").
Proof.
  split.
  - apply (element_at_position [0; 1; 2; 3] 7 [zero; an_empty_list]
             2%nat 2 5); [lia|repeat constructor|simpl; lia].
  - apply (element_at_position [0; 1; 2; 3] 7 [zero; an_empty_list]
             2%nat 4 5); [lia|repeat constructor|simpl; lia].
Defined.

(** ** What [to_dict] and [to_lookup] hold *)

Lemma dict_lookup_entries {A K V} {E : PyEq K} (key_from_x : A -> K)
    (value_from_x : A -> V) (s : list A) (x : A) :
  NoDup (map key_from_x s) -> In x s ->
  dict_lookup (key_from_x x) (map (entry_of key_from_x value_from_x) s)
  = Some (value_from_x x).
Proof.
  induction s as [|a s IH]; intros Hnd Hin; [destruct Hin|].
  cbn in *. inversion Hnd as [|? ? Ha Hnd']; subst.
  destruct (eqb_spec (key_from_x x) (key_from_x a)) as [Ek|Nk].
  - destruct Hin as [->|Hin]; [reflexivity|].
    exfalso. apply Ha. rewrite <- Ek. now apply in_map.
  - destruct Hin as [->|Hin]; [congruence|]. now apply IH.
Qed.

Lemma dict_lookup_absent {K V} {E : PyEq K} (k : K) (dd : dict K V) :
  ~ In k (dict_keys dd) -> dict_lookup k dd = None.
Proof.
  intros N. apply dict_contains_not_In in N. unfold dict_contains in N.
  now destruct (dict_lookup k dd).
Qed.

(** When the keys of the items are distinct, [to_dict] returns a dictionary
    with the keys of the items in source order, where the key of every item
    leads to its value and any other key is a [KeyError]. *)
Theorem to_dict_round_trip {A K V : Type} {E : PyEq K}
    (key_from_x : A -> K) (value_from_x : A -> V)
    (repr_k : K -> string) (repr_x : A -> string) (s : list A) :
  NoDup (map key_from_x s) ->
  exists dd,
    fst (to_dict_original key_from_x value_from_x repr_k repr_x s) = Return dd /\
    dict_keys dd = map key_from_x s /\
    (forall x, In x s -> dict_getitem (key_from_x x) dd = Return (value_from_x x)) /\
    (forall k, ~ In k (map key_from_x s) -> dict_getitem k dd = Raise KeyError).
Proof.
  intros Hnd. exists (map (entry_of key_from_x value_from_x) s).
  unfold to_dict_original, start, bind.
  rewrite (to_dict_for_distinct key_from_x value_from_x repr_k repr_x s
             [] [] Hnd) by (intros x _ []).
  split; [reflexivity|]. split; [apply dict_keys_entries|]. split.
  - intros x Hx. unfold dict_getitem. now rewrite dict_lookup_entries.
  - intros k Hk. unfold dict_getitem.
    rewrite dict_lookup_absent; [reflexivity|].
    now rewrite dict_keys_entries.
Qed.

Lemma to_dict_round_trip_witness :
  exists dd,
    fst (to_dict_original first_character len repr_str repr_str
           ["ada"; "basic"; "cl"]) = Return dd /\
    dict_keys dd = ["a"; "b"; "c"] /\
    (forall x, In x ["ada"; "basic"; "cl"] ->
               dict_getitem (first_character x) dd = Return (len x)) /\
    (forall k, ~ In k ["a"; "b"; "c"] -> dict_getitem k dd = Raise KeyError).
Proof.
  apply (to_dict_round_trip first_character len repr_str repr_str
           ["ada"; "basic"; "cl"]).
  repeat constructor; simpl; intuition discriminate.
Defined.

Lemma dict_setitem_split {K V} {E : PyEq K} (k : K) (v w : V)
    (dd : dict K V) :
  dict_lookup k dd = Some v ->
  exists d1 d2, dd = d1 ++ (k, v) :: d2 /\
                dict_setitem k w dd = d1 ++ (k, w) :: d2.
Proof.
  induction dd as [|[k' v'] dd IH]; cbn; [discriminate|].
  destruct (eqb_spec k k') as [->|N].
  - intros [= ->]. now exists [], dd.
  - intros L. destruct (IH L) as (d1 & d2 & -> & ->).
    now exists ((k', v') :: d1), d2.
Qed.

Lemma all_values_grouping_snoc {A K V} {E : PyEq K} (key_from_x : A -> K)
    (value_from_x : A -> V) (pre : list A) (x : A) :
  Permutation (all_values (grouping key_from_x value_from_x (pre ++ [x])))
              (all_values (grouping key_from_x value_from_x pre)
                 ++ [value_from_x x]).
Proof.
  rewrite grouping_snoc. unfold all_values.
  destruct (dict_lookup (key_from_x x) (grouping key_from_x value_from_x pre))
    as [vs|] eqn:L.
  - destruct (dict_setitem_split _ _ (vs ++ [value_from_x x]) _ L)
      as (d1 & d2 & -> & ->).
    rewrite !map_app, !concat_app. cbn. rewrite <- !app_assoc.
    apply Permutation_app_head, Permutation_app_head.
    apply Permutation_app_comm.
  - rewrite dict_setitem_new.
    + rewrite map_app, concat_app. cbn. reflexivity.
    + apply dict_contains_not_In. unfold dict_contains. now rewrite L.
Qed.

(** [to_lookup] loses and repeats nothing: the sequences it returns hold,
    all together, the values of the items of the source; the key of every
    item leads to a sequence with its value in it; no key leads to an empty
    sequence. *)
Theorem to_lookup_partitions {A K V : Type} {E : PyEq K}
    (key_from_x : A -> K) (value_from_x : A -> V) (s : list A) :
  exists dd,
    fst (to_lookup_original key_from_x value_from_x s) = Return dd /\
    Permutation (all_values dd) (map value_from_x s) /\
    (forall x, In x s ->
       exists vs, dict_getitem (key_from_x x) dd = Return vs /\
                  In (value_from_x x) vs) /\
    (forall k vs, dict_getitem k dd = Return vs -> vs <> [])  /\
    NoDup (dict_keys dd).
Proof.
  exists (grouping key_from_x value_from_x s). split; [|split; [|split; [|split]]].
  - unfold to_lookup_original, start, bind.
    change (@nil (K * list V)) with (grouping key_from_x value_from_x []).
    change (@nil (call A)) with (@calls_for A []).
    now rewrite to_lookup_for_spec.
  - induction s as [|x pre IH] using rev_ind; [reflexivity|].
    rewrite all_values_grouping_snoc, map_app.
    now apply Permutation_app_tail.
  - intros x Hx. unfold dict_getitem, grouping.
    rewrite dict_lookup_map, occurs_first_occurrences.
    rewrite (proj2 (occurs_In _ _)) by now apply in_map.
    eexists. split; [reflexivity|].
    unfold values_of. apply in_map, filter_In. split; [exact Hx|apply eqb_refl].
  - intros k vs. unfold dict_getitem, grouping.
    rewrite dict_lookup_map, occurs_first_occurrences.
    destruct (occurs k (map key_from_x s)) eqn:O; [|discriminate].
    intros [= <-]. apply occurs_In, in_map_iff in O as (x & <- & Hx).
    unfold values_of. intros N.
    assert (Hin : In (value_from_x x)
                    (map value_from_x
                       (filter (fun y => eqb (key_from_x y) (key_from_x x)) s)))
      by (apply in_map, filter_In; split; [exact Hx|apply eqb_refl]).
    rewrite N in Hin. destruct Hin.
  - rewrite dict_keys_grouping. apply first_occurrences_NoDup.
Qed.

(** ** How orderings compose *)

Lemma Permutation_filter_same {A} (f : A -> bool) (l1 l2 : list A) :
  Permutation l1 l2 -> Permutation (filter f l1) (filter f l2).
Proof.
  induction 1 as [|x l1 l2 _ IH|x y l|l1 l2 l3 _ IH1 _ IH2]; cbn.
  - constructor.
  - destruct (f x); [now constructor|exact IH].
  - destruct (f x), (f y); try reflexivity. apply perm_swap.
  - now transitivity (filter f l2).
Qed.

Lemma StronglySorted_filter_weaken {A} (R R' : A -> A -> Prop)
    (f : A -> bool) (l : list A) :
  (forall x y, f x = true -> f y = true -> R x y -> R' x y) ->
  StronglySorted R l -> StronglySorted R' (filter f l).
Proof.
  intros W. induction 1 as [|x l Hl IH Hx]; cbn; [constructor|].
  destruct (f x) eqn:Fx; [|exact IH]. constructor; [exact IH|].
  apply Forall_forall. intros y Hy. apply filter_In in Hy as [Hy Fy].
  rewrite Forall_forall in Hx. now apply W; [| |apply Hx].
Qed.

Lemma tie_lexicographic {K1 K2} (lt1 : K1 -> K1 -> bool)
    (lt2 : K2 -> K2 -> bool) (a c : K1 * K2) :
  tie (lexicographic lt1 lt2) a c
  = tie lt1 (fst a) (fst c) && tie lt2 (snd a) (snd c).
Proof.
  unfold lexicographic, tie.
  destruct (lt1 (fst a) (fst c)), (lt1 (fst c) (fst a)),
    (lt2 (snd a) (snd c)), (lt2 (snd c) (snd a)); reflexivity.
Qed.

Section OrderingsCompose.
Context {A K1 K2 : Type} (ord1 : PyOrd K1) (ord2 : PyOrd K2).
Context {L1 : PyOrdLaws ord1} {L2 : PyOrdLaws ord2}.
Variable k1 : A -> K1.
Variable k2 : A -> K2.

Local Abbreviation lt1 := (@py_lt K1 ord1).
Local Abbreviation lt2 := (@py_lt K2 ord2).

Lemma tie_trans (a b c : K1) :
  tie lt1 a c = true -> tie lt1 b c = true -> tie lt1 a b = true.
Proof.
  rewrite !tie_true. intros [Hac Hca] [Hbc Hcb]. split.
  - apply (@py_le_trans _ ord1 _) with (b := c); assumption.
  - apply (@py_le_trans _ ord1 _) with (b := c); assumption.
Qed.

(** Sorting by [k1] and then by [k2] sorts by the pair [(k2, k1)]. *)
Lemma list_sort_twice (s : list A) :
  stable_sorted_by (lexicographic lt2 lt1) (fun x => (k2 x, k1 x)) s
    (list_sort k2 (list_sort k1 s)).
Proof.
  destruct (list_sort_stable_sorted ord1 k1 s) as (P1 & S1 & F1).
  destruct (list_sort_stable_sorted ord2 k2 (list_sort k1 s)) as (P2 & S2 & F2).
  split; [now transitivity (list_sort k1 s)|]. split.
  - assert (G : forall c, StronglySorted (fun x y => lt1 (k1 y) (k1 x) = false)
                    (filter (fun x => tie lt2 (k2 x) c)
                       (list_sort k2 (list_sort k1 s)))).
    { intros c. rewrite F2.
      apply StronglySorted_filter_weaken with (2 := S1). auto. }
    clear P1 P2 S1 F1 F2.
    induction S2 as [|x l Hl IH Hx]; [constructor|].
    constructor.
    + apply IH. intros c. specialize (G c). cbn in G.
      destruct (tie lt2 (k2 x) c); [now inversion G|exact G].
    + apply Forall_forall. intros y Hy. rewrite Forall_forall in Hx.
      unfold lexicographic. cbn [fst snd]. rewrite (Hx y Hy). cbn.
      destruct (tie lt2 (k2 y) (k2 x)) eqn:T; [|reflexivity]. cbn.
      specialize (G (k2 x)). cbn in G.
      rewrite (@tie_refl _ ord2 _) in G. inversion G as [|? ? _ Hall]; subst.
      rewrite Forall_forall in Hall. apply Hall.
      apply filter_In. now split.
  - intros c.
    assert (E : forall l,
               filter (fun x => tie (lexicographic lt2 lt1) (k2 x, k1 x) c) l
               = filter (fun x => tie lt1 (k1 x) (snd c))
                   (filter (fun x => tie lt2 (k2 x) (fst c)) l)).
    { intros l. rewrite filter_twice. apply filter_ext.
      intros x. apply tie_lexicographic. }
    assert (C : forall l,
               filter (fun x => tie lt1 (k1 x) (snd c))
                 (filter (fun x => tie lt2 (k2 x) (fst c)) l)
               = filter (fun x => tie lt2 (k2 x) (fst c))
                   (filter (fun x => tie lt1 (k1 x) (snd c)) l)).
    { intros l. rewrite !filter_twice. apply filter_ext.
      intros x. apply andb_comm. }
    now rewrite !E, F2, C, F1, C.
Qed.
End OrderingsCompose.

(** Ordering by [k1] and then ordering the result by [k2] is ordering by
    [k2] with [k1] as the tie-break: the second [order_by] does not discard
    the first, it demotes it. *)
Theorem order_by_twice_is_then_by {A K1 K2 : Type} (ord1 : PyOrd K1)
    (ord2 : PyOrd K2) (k1 : A -> K1) (k2 : A -> K2) (xs : pyobj A)
    (s : list A) :
  PyOrdLaws ord1 -> PyOrdLaws ord2 ->
  xs |> to_list = Return s ->
  xs |> order_by k1 |> order_by k2 |> to_list
  = (xs |> order_by k2 |> then_by k1 |>> to_list).
Proof.
  intros L1 L2 Hs. cbn in *. rewrite Hs. cbn. f_equal.
  pose proof (@StrictWeakOrder_tuple _ _ ord2 ord1 L2 L1) as SWO.
  apply (@stable_sorted_unique _ _ (@PyOrd_tuple _ ord2 _ ord1)
           (fun x => (k2 x, k1 x)) SWO s).
  - apply stable_sorted_by_ext with (lt1 := lexicographic py_lt py_lt).
    + intros a b. symmetry. apply (@tuple_lt_lexicographic _ _ ord2 ord1 L2 L1).
    + apply (@list_sort_twice _ _ _ ord1 ord2 L1 L2).
  - apply (@list_sort_stable_sorted _ _ _ _ SWO).
Qed.

Lemma order_by_twice_is_then_by_witness :
  Seq (range 10) |> order_by (fun x => x mod 3) |> order_by (fun x => x mod 2)
    |> to_list
  = (Seq (range 10) |> order_by (fun x => x mod 2) |> then_by (fun x => x mod 3)
       |>> to_list).
Proof.
  apply (order_by_twice_is_then_by PyOrd_int PyOrd_int (fun x => x mod 3)
           (fun x => x mod 2) (Seq (range 10)) (range 10)).
  - exact PyOrdLaws_int.
  - exact PyOrdLaws_int.
  - reflexivity.
Defined.

Lemma stable_sorted_self {A K} (ord : PyOrd K) (k : A -> K) (s : list A) :
  StronglySorted (fun x y => py_lt (k y) (k x) = false) s ->
  stable_sorted_by py_lt k s s.
Proof. intros S. split; [reflexivity|]. now split. Qed.

(** Ordering a source whose items already come with non-decreasing keys
    yields the items as they are; so ordering twice by the same key is
    ordering once. *)
Theorem order_by_idempotent {A K : Type} (ord : PyOrd K) (k : A -> K)
    (xs : pyobj A) (s : list A) :
  StrictWeakOrder ord ->
  xs |> to_list = Return s ->
  (StronglySorted (fun x y => py_lt (k y) (k x) = false) s ->
   xs |> order_by k |> to_list = Return s) /\
  xs |> order_by k |> order_by k |> to_list = xs |> order_by k |> to_list.
Proof.
  intros SWO Hs.
  assert (G : forall l, StronglySorted (fun x y => py_lt (k y) (k x) = false) l ->
                        list_sort k l = l).
  { intros l S. apply (@stable_sorted_unique _ _ ord k SWO l).
    - apply (@list_sort_stable_sorted _ _ _ _ SWO).
    - now apply stable_sorted_self. }
  cbn in *. rewrite Hs. cbn. split.
  - intros S. now rewrite G.
  - f_equal. apply G. apply (@list_sort_sorted _ _ ord k SWO).
Qed.

Lemma order_by_idempotent_witness :
  Seq (range 10) |> order_by (fun x => x) |> to_list = Return (range 10).
Proof.
  apply (proj1 (order_by_idempotent PyOrd_int (fun x => x) (Seq (range 10))
                  (range 10) StrictWeakOrder_int eq_refl)).
  unfold range. cbn. repeat constructor.
Defined.

(** [order_by(k1) | then_by(k2)] keeps the order of the primary keys, and
    the items whose primary keys tie come out as [order_by(k2)] orders
    them on their own. *)
Theorem then_by_orders_within_ties {A K1 K2 : Type} (ord1 : PyOrd K1)
    (ord2 : PyOrd K2) (k1 : A -> K1) (k2 : A -> K2) (xs : pyobj A)
    (s : list A) :
  PyOrdLaws ord1 -> PyOrdLaws ord2 ->
  xs |> to_list = Return s ->
  exists out,
    xs |> order_by k1 |> then_by k2 |>> to_list = Return out /\
    StronglySorted (fun a b => py_lt b a = false) (map k1 out) /\
    forall c,
      Seq (filter (fun x => tie py_lt (k1 x) c) s) |> order_by k2 |> to_list
      = Return (filter (fun x => tie py_lt (k1 x) c) out).
Proof.
  intros L1 L2 Hs.
  exists (@list_sort A _ (@PyOrd_tuple _ ord1 _ ord2) (fun x => (k1 x, k2 x)) s).
  split; [cbn in *; now rewrite Hs|].
  assert (Lex : stable_sorted_by (lexicographic py_lt py_lt)
                  (fun x => (k1 x, k2 x)) s
                  (@list_sort A _ (@PyOrd_tuple _ ord1 _ ord2)
                     (fun x => (k1 x, k2 x)) s)).
  { apply stable_sorted_by_ext with (lt1 := @py_lt _ (@PyOrd_tuple _ ord1 _ ord2)).
    - apply (@tuple_lt_lexicographic _ _ ord1 ord2 L1 L2).
    - apply (@list_sort_stable_sorted _ _ _ _
               (@StrictWeakOrder_tuple _ _ ord1 ord2 L1 L2)). }
  destruct Lex as (P & S & F). split.
  - apply StronglySorted_map.
    rewrite <- (filter_all (fun _ => true) _ (fun _ _ => eq_refl)).
    apply StronglySorted_filter_weaken with (2 := S).
    intros x y _ _. unfold lexicographic. cbn [fst snd].
    now intros [H _]%orb_false_iff.
  - intros c. cbn. f_equal. symmetry.
    apply (@stable_sorted_unique _ _ ord2 k2 (@py_strict_weak _ _ L2)
             (filter (fun x => tie py_lt (k1 x) c) s)).
    + split; [now apply Permutation_filter_same|]. split.
      * apply StronglySorted_filter_weaken with (2 := S).
        intros x y Tx Ty. unfold lexicographic. cbn [fst snd].
        intros [_ H]%orb_false_iff.
        rewrite (@tie_trans _ ord1 L1 _ _ _ Ty Tx) in H. exact H.
      * intros c2. rewrite !filter_twice.
        assert (T : forall x,
                   tie py_lt (k1 x) c && tie py_lt (k2 x) c2
                   = tie (lexicographic py_lt py_lt) (k1 x, k2 x) (c, c2))
          by (intros x; now rewrite tie_lexicographic).
        rewrite !(filter_ext _ _ T). apply F.
    + apply (@list_sort_stable_sorted _ _ _ _ (@py_strict_weak _ _ L2)).
Qed.

Lemma then_by_orders_within_ties_witness :
  exists out,
    Seq (range 10) |> order_by (fun x => x mod 2) |> then_by (fun x => - x)
      |>> to_list = Return out /\
    StronglySorted (fun a b => py_lt b a = false) (map (fun x => x mod 2) out) /\
    forall c,
      Seq (filter (fun x => tie py_lt (x mod 2) c) (range 10))
        |> order_by (fun x => - x) |> to_list
      = Return (filter (fun x => tie py_lt (x mod 2) c) out).
Proof.
  apply (then_by_orders_within_ties PyOrd_int PyOrd_int (fun x => x mod 2)
           (fun x => - x) (Seq (range 10)) (range 10)).
  - exact PyOrdLaws_int.
  - exact PyOrdLaws_int.
  - reflexivity.
Defined.

(** ** Generators again: finite sources, short circuits, [repeat(x, n)] *)

Lemma collect_iter {A} (s pos : list A) : forall fuel,
  (List.length pos < fuel)%nat -> Lazy.collect (Lazy.iter s) fuel pos = Some pos.
Proof.
  induction pos as [|x pos IH]; intros [|fuel] Hfuel; cbn in *; try lia.
  - reflexivity.
  - rewrite IH by lia. reflexivity.
Qed.

Lemma collect_select {A B} (s pos : list A) (f : A -> B) : forall fuel,
  (List.length pos < fuel)%nat ->
  Lazy.collect (LazyOps.select_original (Lazy.iter s) f) fuel pos
  = Some (pos |> select f).
Proof.
  induction pos as [|x pos IH]; intros [|fuel] Hfuel; cbn in *; try lia.
  - reflexivity.
  - rewrite IH by lia. reflexivity.
Qed.

Lemma collect_take_while {A} (s pos : list A) (p : A -> bool) : forall fuel,
  (List.length pos < fuel)%nat ->
  Lazy.collect (LazyOps.take_while_original (Lazy.iter s) p) fuel pos
  = Some (pos |> take_while p).
Proof.
  induction pos as [|x pos IH]; intros [|fuel] Hfuel; cbn in *; try lia.
  - reflexivity.
  - destruct (p x); [|reflexivity]. rewrite IH by lia. reflexivity.
Qed.

Lemma collect_take {A} (s pos : list A) (n : Z) : forall fuel i,
  (List.length pos < fuel)%nat ->
  Lazy.collect (Lazy.take_original (Lazy.iter s) n) fuel (pos, i)
  = Some (take_for i pos n).
Proof.
  induction pos as [|x pos IH]; intros [|fuel] i Hfuel; cbn in *; try lia.
  - reflexivity.
  - destruct (i <? n); [|reflexivity]. rewrite IH by lia. reflexivity.
Qed.

Lemma collect_concat_second {A} (xs ys pos : list A) : forall fuel,
  (List.length pos < fuel)%nat ->
  Lazy.collect (LazyOps.concat_original (Lazy.iter xs) (Lazy.iter ys)) fuel
    (inr pos)
  = Some pos.
Proof.
  induction pos as [|y pos IH]; intros [|fuel] Hfuel; cbn in *; try lia.
  - reflexivity.
  - rewrite IH by lia. reflexivity.
Qed.

Lemma concat_next_first {A} (xs ys pos : list A) :
  Lazy.next (LazyOps.concat_original (Lazy.iter xs) (Lazy.iter ys)) (inl pos)
  = match pos, ys with
    | x :: pos', _ => Some (x, inl pos')
    | [], y :: ys' => Some (y, inr ys')
    | [], [] => None
    end.
Proof. destruct pos, ys; reflexivity. Qed.

Lemma collect_concat_first {A} (xs ys pos : list A) : forall fuel,
  (List.length pos + List.length ys < fuel)%nat ->
  Lazy.collect (LazyOps.concat_original (Lazy.iter xs) (Lazy.iter ys)) fuel
    (inl pos)
  = Some (pos ++ ys).
Proof.
  induction pos as [|x pos IH]; intros [|fuel] Hfuel; cbn in Hfuel; try lia;
    rewrite collect_step, concat_next_first.
  - destruct ys as [|y ys]; [reflexivity|].
    rewrite collect_concat_second by (cbn in Hfuel; lia). reflexivity.
  - rewrite IH by lia. reflexivity.
Qed.

(** Over a finite source the generators yield what the operators over
    sequences say: [to_list] gives the items back, and [select],
    [take_while], [take] and [concat] followed by [to_tuple] give the
    sequences of their embeddings over lists, once the loop may resume the
    generator more often than there are items. *)
Theorem generators_agree_on_finite_sources {A B : Type} (s ys : list A)
    (f : A -> B) (p : A -> bool) (n : Z) (extra : nat) :
  let fuel := (S (List.length s + List.length ys) + extra)%nat in
  Lazy.iter s |> Lazy.to_list fuel = Some s /\
  Lazy.iter s |> LazyOps.select f |> Lazy.to_tuple fuel = Some (s |> select f) /\
  Lazy.iter s |> LazyOps.take_while p |> Lazy.to_tuple fuel
    = Some (s |> take_while p) /\
  Lazy.iter s |> Lazy.take n |> Lazy.to_tuple fuel = Some (s |> take n) /\
  Lazy.iter s |> LazyOps.concat (Lazy.iter ys) |> Lazy.to_tuple fuel
    = Some (s |> concat ys).
Proof.
  intros fuel. rewrite concat_original_app.
  split; [apply collect_iter; lia|].
  split; [apply collect_select; lia|].
  split; [apply collect_take_while; lia|].
  split; [apply collect_take; lia|].
  apply collect_concat_first. lia.
Qed.

Lemma any_for_tail_unbounded {A} (pre : list A) (x : A) (p : A -> bool) :
  p x = false ->
  forall fuel,
    LazyOps.any_for
      (LazyOps.concat_original (Lazy.iter pre) (Lazy.repeat x None)) fuel
      (inr tt) p
    = None.
Proof.
  intros Px. induction fuel as [|fuel IH]; [reflexivity|].
  cbn. rewrite Px. exact IH.
Qed.

Lemma any_for_prefix {A} (pre pos : list A) (x : A) (p : A -> bool) :
  forall fuel,
    (List.length pos < fuel)%nat \/ (pos ++ [x]) |> any p = false ->
    LazyOps.any_for
      (LazyOps.concat_original (Lazy.iter pre) (Lazy.repeat x None)) fuel
      (inl pos) p
    = if (pos ++ [x]) |> any p then Some true else None.
Proof.
  induction pos as [|y pos IH]; intros [|fuel] Hfuel.
  - destruct Hfuel as [Hfuel|Hfuel]; [cbn in Hfuel; lia|now rewrite Hfuel].
  - cbn. destruct (p x) eqn:Px; [reflexivity|].
    now apply any_for_tail_unbounded.
  - destruct Hfuel as [Hfuel|Hfuel]; [cbn in Hfuel; lia|now rewrite Hfuel].
  - cbn. destruct (p y) eqn:Py; [reflexivity|].
    apply IH. destruct Hfuel as [Hfuel|Hfuel].
    + left. cbn in Hfuel. lia.
    + right. cbn in Hfuel. now rewrite Py in Hfuel.
Qed.

(** [any] stops at the first item that satisfies the predicate: on a source
    that never ends, here the items [pre] followed by [x] for ever, it
    returns [True] as soon as such an item comes, and never returns when
    none does. *)
Theorem any_short_circuits {A : Type} (pre : list A) (x : A) (p : A -> bool) :
  ((pre ++ [x]) |> any p = true ->
   forall extra,
     Lazy.iter pre |> LazyOps.concat (Lazy.repeat x None)
       |> LazyOps.any (S (List.length pre) + extra) p = Some true) /\
  ((pre ++ [x]) |> any p = false ->
   forall fuel,
     Lazy.iter pre |> LazyOps.concat (Lazy.repeat x None) |> LazyOps.any fuel p
     = None).
Proof.
  split.
  - intros E extra.
    change (LazyOps.any_for
              (LazyOps.concat_original (Lazy.iter pre) (Lazy.repeat x None))
              (S (List.length pre) + extra) (inl pre) p = Some true).
    rewrite any_for_prefix by (left; lia). now rewrite E.
  - intros E fuel.
    change (LazyOps.any_for
              (LazyOps.concat_original (Lazy.iter pre) (Lazy.repeat x None))
              fuel (inl pre) p = None).
    rewrite any_for_prefix by now right. now rewrite E.
Qed.

Lemma any_short_circuits_witness :
  Lazy.iter [1; 3; 4] |> LazyOps.concat (Lazy.repeat 5 None)
    |> LazyOps.any 4 Z.even = Some true /\
  forall fuel,
    Lazy.iter [1; 3] |> LazyOps.concat (Lazy.repeat 5 None)
      |> LazyOps.any fuel Z.even = None.
Proof.
  split.
  - apply (proj1 (any_short_circuits [1; 3; 4] 5 Z.even) eq_refl 0%nat).
  - apply (proj2 (any_short_circuits [1; 3] 5 Z.even) eq_refl).
Defined.

Lemma repeat_bounded_next {A} (x : A) (n i : Z) :
  Lazy.next (Lazy.repeat x (Some n)) i
  = if i <? n then Some (x, i + 1) else None.
Proof. reflexivity. Qed.

Lemma collect_repeat_bounded {A} (x : A) (n : Z) (m : nat) :
  forall (i : Z) (extra : nat),
    n = i + Z.of_nat m ->
    Lazy.collect (Lazy.repeat x (Some n)) (S m + extra) i = Some (repeat x m).
Proof.
  induction m as [|m IH]; intros i extra E;
    change (S ?k + extra)%nat with (S (k + extra));
    rewrite collect_step, repeat_bounded_next.
  - replace (i <? n) with false by (symmetry; apply Z.ltb_ge; lia).
    reflexivity.
  - replace (i <? n) with true by (symmetry; apply Z.ltb_lt; lia).
    change (S (m + extra)) with (S m + extra)%nat.
    rewrite (IH (i + 1) extra) by lia. reflexivity.
Qed.

(** [repeat(x, n)] yields [x] [n] times and then ends, and nothing at all
    when [n] is zero or negative; it is what [repeat(x) | take(n)]
    yields. *)
Theorem repeat_bounded {A : Type} (x : A) (n : Z) (extra : nat) :
  Lazy.repeat x (Some n) |> Lazy.to_tuple (S (Z.to_nat n) + extra)
    = Some (repeat x (Z.to_nat n)) /\
  Lazy.repeat x None |> Lazy.take n |> Lazy.to_tuple (S (Z.to_nat n) + extra)
    = Lazy.repeat x (Some n) |> Lazy.to_tuple (S (Z.to_nat n) + extra).
Proof.
  destruct (Z.ltb_spec n 0) as [Hneg|Hpos].
  - replace (Z.to_nat n) with O by lia. cbn.
    replace (0 <? n) with false by (symmetry; apply Z.ltb_ge; lia).
    now split.
  - assert (R : Lazy.repeat x (Some n) |> Lazy.to_tuple (S (Z.to_nat n) + extra)
                = Some (repeat x (Z.to_nat n)))
      by (apply (collect_repeat_bounded x n (Z.to_nat n) 0 extra); lia).
    split; [exact R|]. rewrite R.
    pose proof (collect_take_repeat x (Z.to_nat n) 0 extra) as T.
    replace (0 + Z.of_nat (Z.to_nat n)) with n in T by lia. exact T.
Qed.

(** ** The predicate of a reducer is a [where] *)

(** Giving a reducer a predicate is filtering with [where] first, and two
    [where]s in a row filter by the conjunction, in either order. *)
Theorem predicate_is_where {A : Type} (s : list A) (d : A) (p q : A -> bool) :
  s |> first_or_default d p = s |> where_ p |> first_or_default d always /\
  s |> any p = s |> where_ p |> any always /\
  s |> where_ p |> all p = true /\
  s |> where_ p |> where_ q = s |> where_ (fun x => p x && q x) /\
  s |> where_ p |> where_ q = s |> where_ q |> where_ p.
Proof.
  assert (W : forall r, s |> where_ r = filter r s)
    by (intros r; apply where_original_filter).
  split; [|split; [|split; [|split]]].
  - clear W. cbn. induction s as [|x s IH]; cbn; [reflexivity|].
    destruct (p x); cbn; [reflexivity|exact IH].
  - clear W. cbn. induction s as [|x s IH]; cbn; [reflexivity|].
    destruct (p x); cbn; [reflexivity|exact IH].
  - clear W. cbn. induction s as [|x s IH]; cbn; [reflexivity|].
    destruct (p x) eqn:Px; cbn; [now rewrite Px|exact IH].
  - rewrite (where_original_filter (s |> where_ p)), !W.
    apply filter_twice.
  - rewrite (where_original_filter (s |> where_ p)),
      (where_original_filter (s |> where_ q)), !W, !filter_twice.
    apply filter_ext. intros x. apply andb_comm.
Qed.

(** ** The examples of the docstrings of these operators *)

Example take_while_doctest :
  [1; 3; 5; 7; 5; 3; 1] |> take_while (fun x => x <? 5) = [1; 3] /\
  [1; 3; 5; 7; 5; 3; 1] |> skip_while (fun x => x <? 5) = [5; 7; 5; 3; 1] /\
  [1; 3; 5; 7] |> take_while_with_index (fun x i => x + i <? 5) = [1; 3] /\
  [1; 3; 5; 7] |> skip_while_with_index (fun x i => x + i <? 5) = [5; 7] /\
  range 10 |> take 5 = [0; 1; 2; 3; 4] /\
  range 10 |> skip 5 = [5; 6; 7; 8; 9].
Proof. repeat split. Qed.

Example select_doctest :
  range 10 |> select (fun x => x * x) = [0; 1; 4; 9; 16; 25; 36; 49; 64; 81] /\
  [3; 2; 1] |> select_with_index (fun x i => x * i) = [0; 2; 2] /\
  [1; 2; 3] |> select_many (fun x => repeat x (Z.to_nat x)) = [1; 2; 2; 3; 3; 3] /\
  [1; 2; 3] |> select_many_with_index (fun x i => repeat x (Z.to_nat i))
    = [2; 3; 3] /\
  [1; 3; 5; 7] |> where_with_index (fun x i => i mod 2 =? 0) = [1; 5].
Proof. repeat split. Qed.

Example reducers_doctest :
  range 10 |> where_ (fun x => x mod 2 =? 0) |> count always = 5 /\
  range 10 |> sum (fun x => - x) = - 45 /\
  range 10 |> max (fun x => - x) = Return 0 /\
  range 10 |> min (fun x => - x) = Return (- 9) /\
  [1; 2; 3] |> average Z.div (fun x => x) = Return 2 /\
  [0; 1; 0; 1; 2; 3] |> except_from [1; 2; 1] = [0; 0; 3] /\
  range 10 |> reverse = [9; 8; 7; 6; 5; 4; 3; 2; 1; 0].
Proof. repeat split. Qed.
